(** * Jeu de la vie: the thread-per-cell engine and its bounded history

    A shallow embedding of [gamelife_core.py] and [history_manager.py].
    Grids are Python lists of lists of integers, the module globals of both
    files are gathered in one record, and every function that reads or writes
    a global takes and returns that record. *)

From Stdlib Require Import ZArith QArith Qminmax Lia DecimalString DecimalZ.
From stdpp Require Import base option list list_numbers sorting strings gmap.

Local Open Scope Z_scope.

(** ** Python list indexing *)

Module Py.

(** [l[k]] accepts [-len <= k < len]; a negative index counts from the
    end.  [None] stands for [IndexError]. *)
Definition norm_index (len : nat) (k : Z) : option nat :=
  if decide (0 <= k)
  then (if decide (k < Z.of_nat len) then Some (Z.to_nat k) else None)
  else (if decide (0 <= k + Z.of_nat len)
        then Some (Z.to_nat (k + Z.of_nat len)) else None).

Definition getitem {A} (l : list A) (k : Z) : option A :=
  i ← norm_index (length l) k; l !! i.

Definition setitem {A} (l : list A) (k : Z) (v : A) : option (list A) :=
  i ← norm_index (length l) k; Some (<[i := v]> l).

(** Truth value of a list: empty lists are false. *)
Definition truthy {A} (l : list A) : bool :=
  match l with [] => false | _ :: _ => true end.

End Py.

(** ** Grids *)

Abbreviation grid := (list (list Z)).

(** [T[i][j]] *)
Definition cell (g : grid) (i j : Z) : option Z :=
  row ← Py.getitem g i; Py.getitem row j.

(** [T[i][j] = v] *)
Definition setcell (g : grid) (i j : Z) (v : Z) : option grid :=
  row ← Py.getitem g i;
  row' ← Py.setitem row j v;
  Py.setitem g i row'.

(** [[[0] * (size + 2) for _ in range(size + 2)]] *)
Definition make_grid (size : nat) : grid :=
  replicate (size + 2) (replicate (size + 2) 0).

(** [range(1, n + 1)], as the integers the loops bind. *)
Definition range1 (n : nat) : list Z := seqZ 1 (Z.of_nat n).

(** The cells visited by [for i in range(1, n+1): for j in range(1, n+1)],
    in the order of the loops.  [start_workers] creates one thread for each. *)
Definition interior_cells (n : nat) : list (Z * Z) :=
  i ← range1 n; (λ j, (i, j)) <$> range1 n.

(** *** [cell_thread]: the computation between the wait for [running] and the barrier *)

Definition neighbors (T : grid) (i j : Z) : option Z :=
  a ← cell T (i - 1) (j - 1); b ← cell T (i - 1) j; c ← cell T (i - 1) (j + 1);
  d ← cell T i (j - 1); e ← cell T i (j + 1);
  f ← cell T (i + 1) (j - 1); g ← cell T (i + 1) j; h ← cell T (i + 1) (j + 1);
  Some (a + b + c + d + e + f + g + h).

(** The value the thread of cell [(i, j)] stores in [Tnext[i][j]]. *)
Definition next_value (T : grid) (i j : Z) : option Z :=
  nb ← neighbors T i j;
  c ← cell T i j;
  if decide (c = 1)
  then Some (if decide (nb = 2 ∨ nb = 3) then 1 else 0)
  else Some (if decide (nb = 3) then 1 else 0).

(** One pass of the body of the thread of [(i, j)]: reads [T], writes
    [Tnext].  [None] is an exception, which ends the thread. *)
Definition cell_step (T Tnext : grid) (ij : Z * Z) : option grid :=
  v ← next_value T ij.1 ij.2; setcell Tnext ij.1 ij.2 v.

(** A round: every thread of the schedule runs its pass once.  Threads only
    read [T] and only write their own cell of [Tnext], so an interleaving is
    a sequence of passes; the schedule is the order in which they happen. *)
Fixpoint compute_round (sched : list (Z * Z)) (T Tnext : grid) : option grid :=
  match sched with
  | [] => Some Tnext
  | ij :: rest => Tnext' ← cell_step T Tnext ij; compute_round rest T Tnext'
  end.

(** ** The globals of the two modules *)

(** [threading.Event] objects are their flag; [_speed] and the time spent in
    [time.sleep] are rationals (no property below depends on rounding).
    [T] and [Tnext] are two lists of their own, and so is every row
    ([start_workers] calls [make_grid] once for each, and [make_grid] builds
    each row apart), and every snapshot is a copy: no two of these objects
    are aliases, so each is modelled by its value. *)
Record State := {
  T : grid;                          (* core.T *)
  Tnext : grid;                      (* core.Tnext *)
  n : nat;                           (* core.n *)
  gen_counter : Z;                   (* core.gen_counter *)
  stop_event : bool;
  running : bool;
  step_event : bool;
  redraw_event : bool;
  speed : Q;                         (* core._speed *)
  slept : Q;                         (* total of the time.sleep calls *)
  generation_history : gmap Z grid   (* history_manager.generation_history *)
}.

Definition set_grids (cur nxt : grid) (st : State) : State :=
  {| T := cur; Tnext := nxt; n := n st; gen_counter := gen_counter st;
     stop_event := stop_event st; running := running st;
     step_event := step_event st; redraw_event := redraw_event st;
     speed := speed st; slept := slept st;
     generation_history := generation_history st |}.

Definition set_T (cur : grid) (st : State) : State := set_grids cur (Tnext st) st.

Definition set_Tnext (nxt : grid) (st : State) : State := set_grids (T st) nxt st.

Definition set_gen_counter (g : Z) (st : State) : State :=
  {| T := T st; Tnext := Tnext st; n := n st; gen_counter := g;
     stop_event := stop_event st; running := running st;
     step_event := step_event st; redraw_event := redraw_event st;
     speed := speed st; slept := slept st;
     generation_history := generation_history st |}.

Definition set_events (run step redraw : bool) (st : State) : State :=
  {| T := T st; Tnext := Tnext st; n := n st; gen_counter := gen_counter st;
     stop_event := stop_event st; running := run;
     step_event := step; redraw_event := redraw;
     speed := speed st; slept := slept st;
     generation_history := generation_history st |}.

Definition set_history (h : gmap Z grid) (st : State) : State :=
  {| T := T st; Tnext := Tnext st; n := n st; gen_counter := gen_counter st;
     stop_event := stop_event st; running := running st;
     step_event := step_event st; redraw_event := redraw_event st;
     speed := speed st; slept := slept st;
     generation_history := h |}.

(** [time.sleep(d)] *)
Definition sleep (d : Q) (st : State) : State :=
  {| T := T st; Tnext := Tnext st; n := n st; gen_counter := gen_counter st;
     stop_event := stop_event st; running := running st;
     step_event := step_event st; redraw_event := redraw_event st;
     speed := speed st; slept := (slept st + d)%Q;
     generation_history := generation_history st |}.

(** ** [gamelife_core]: [has_living_cells], [clear_grid], [randomize_grid] *)

(** The two nested loops with their early [return True]. *)
Fixpoint scan_alive (T : grid) (cells : list (Z * Z)) : option bool :=
  match cells with
  | [] => Some false
  | (i, j) :: rest =>
      c ← cell T i j;
      if decide (c = 1) then Some true else scan_alive T rest
  end.

(** [None] is the [IndexError] of a grid too small for [n]. *)
Definition has_living_cells (st : State) : option bool :=
  scan_alive (T st) (interior_cells (n st)).

Fixpoint fill_cells (value : Z * Z → Z) (cells : list (Z * Z)) (g : grid)
  : option grid :=
  match cells with
  | [] => Some g
  | ij :: rest => g' ← setcell g ij.1 ij.2 (value ij); fill_cells value rest g'
  end.

Definition clear_grid (st : State) (g : grid) : option grid :=
  fill_cells (λ _, 0) (interior_cells (n st)) g.

(** [draw ij] tells whether the call of [random.random()] made for the cell
    [ij] returned less than 0.25. *)
Definition randomize_grid (draw : Z * Z → bool) (st : State) (g : grid)
  : option grid :=
  fill_cells (λ ij, if draw ij then 1 else 0) (interior_cells (n st)) g.

(** ** Exceptions *)

Inductive exn := IndexError | KeyError | MemoryError.

(** What a call leaves behind: a returned value or an exception in flight,
    and in both cases the globals as they are at that moment. *)
Inductive outcome (A : Type) :=
  | Returned (a : A) (st : State)
  | Raised (e : exn) (st : State).
Arguments Returned {A} a st.
Arguments Raised {A} e st.

Definition bind_outcome {A B} (m : outcome A) (k : A → State → outcome B)
  : outcome B :=
  match m with
  | Returned a st => k a st
  | Raised e st => Raised e st
  end.

(** ** [history_manager]: recording *)

Definition MAX_HISTORY_GENERATIONS : nat := 100.

(** [generation_history.keys()] *)
Definition keys (h : gmap Z grid) : list Z := (map_to_list h).*1.

(** [min(l)] and [max(l)]; [None] is the [ValueError] of an empty argument. *)
Definition py_min (l : list Z) : option Z :=
  match l with [] => None | x :: l' => Some (foldl Z.min x l') end.

Definition py_max (l : list Z) : option Z :=
  match l with [] => None | x :: l' => Some (foldl Z.max x l') end.

(** [save_state_to_history].  The copy [[row[:] for row in core.T]] is the
    grid itself, values being immutable here.  [min] is only called on a
    dictionary of more than [MAX_HISTORY_GENERATIONS] entries, so its
    [ValueError] cannot occur ([py_min_keys] below). *)
Definition save_state_to_history (st : State) : State :=
  if Py.truthy (T st) then
    let state := T st in
    let h := <[gen_counter st := state]> (generation_history st) in
    if decide (MAX_HISTORY_GENERATIONS < size h)%nat then
      match py_min (keys h) with
      | Some min_gen => set_history (delete min_gen h) st
      | None => set_history h st
      end
    else set_history h st
  else st.

(** ** [gamelife_core]: the barrier action *)

(** The block under [swap_lock]. *)
Definition swap_grids (st : State) : State :=
  set_gen_counter (gen_counter st + 1) (set_grids (Tnext st) (T st) st).

(** Everything after the call of [save_state_to_history]. *)
Definition after_snapshot (st : State) : State :=
  let st1 := set_events (running st) (step_event st) true st in
  let st2 := if step_event st1 then set_events false false (redraw_event st1) st1
             else st1 in
  let local_speed := speed st2 in
  if Qlt_le_dec 0 local_speed then sleep (Qmax 0 (1 / local_speed))%Q st2
  else st2.

Section barrier_action.

(** The body of [barrier_action] holds no [try]: whatever its two callees
    raise leaves the function.  The callees are variables here so that the
    control flow can be studied for callees that raise. *)
Variable swap_block : State → outcome unit.
Variable snapshot : State → outcome unit.

Definition barrier_action_with (st : State) : outcome unit :=
  bind_outcome (swap_block st) (λ _ st1,
  bind_outcome (snapshot st1) (λ _ st2,
  Returned tt (after_snapshot st2))).

End barrier_action.

Definition barrier_action (st : State) : outcome unit :=
  barrier_action_with
    (λ st, Returned tt (swap_grids st))
    (λ st, Returned tt (save_state_to_history st))
    st.

(** One generation: the round of the cell threads, then the action run by
    the last thread to reach the barrier.  [None]: a thread died in the
    round and the barrier is never released. *)
Definition generation (sched : list (Z * Z)) (st : State)
  : option (outcome unit) :=
  nxt ← compute_round sched (T st) (Tnext st);
  Some (barrier_action (set_Tnext nxt st)).

(** ** [history_manager]: navigation *)

Definition lookup2 (g : grid) (i j : nat) : option Z := row ← g !! i; row !! j.

(** [i < len(g) and j < len(g[i])] *)
Definition in_bounds (g : grid) (i j : nat) : bool :=
  bool_decide (i < length g)%nat && bool_decide (j < length (g !!! i))%nat.

(** [g[i][j] = v] for indices in bounds. *)
Definition store (g : grid) (i j : nat) (v : Z) : grid :=
  <[i := <[j := v]> (g !!! i)]> g.

Inductive copied := Finished (g : grid) | Failed (g : grid).

(** [for j in range(len(state[i])): core.T[i][j] = state[i][j]], entered at
    column [j] with [cells] the rest of [state[i]].  An index out of the live
    grid raises [IndexError]. *)
Fixpoint restore_row (i : nat) (cells : list Z) (j : nat) (g : grid) : copied :=
  match cells with
  | [] => Finished g
  | v :: rest =>
      if in_bounds g i j then restore_row i rest (S j) (store g i j v)
      else Failed g
  end.

(** [for i in range(len(state)): ...], entered at row [i]. *)
Fixpoint restore_rows (rows : grid) (i : nat) (g : grid) : copied :=
  match rows with
  | [] => Finished g
  | row :: rest =>
      match restore_row i row 0 g with
      | Finished g' => restore_rows rest (S i) g'
      | Failed g' => Failed g'
      end
  end.

(** [sorted(generation_history.keys())] *)
Definition available_gens (st : State) : list Z :=
  merge_sort Z.le (keys (generation_history st)).

Definition dict_empty (h : gmap Z grid) : bool := bool_decide (h = ∅).

(** The choice of [target_gen]; [None] when the function returns [False]
    before reaching the copy. *)
Definition target_gen (direction : string) (st : State) : option Z :=
  if dict_empty (generation_history st) then None
  else if decide (direction = "undo"%string) then
    last (filter (λ g, g < gen_counter st) (available_gens st))
  else if decide (direction = "redo"%string) then
    head (filter (λ g, gen_counter st < g) (available_gens st))
  else None.

Definition load_state_from_history (direction : string) (st : State)
  : outcome bool :=
  match target_gen direction st with
  | None => Returned false st
  | Some tg =>
      match generation_history st !! tg with
      | None => Raised KeyError st
      | Some state =>
          match restore_rows state 0 (T st) with
          | Failed g => Raised IndexError (set_T g st)
          | Finished g =>
              let st1 := set_gen_counter tg (set_T g st) in
              Returned true
                (set_events (running st1) (step_event st1) true st1)
          end
      end
  end.

(** The [min] and [max] below are taken on a list that is not empty. *)
Definition can_undo (st : State) : bool :=
  if dict_empty (generation_history st) then false
  else match py_min (available_gens st) with
       | Some m => bool_decide (m < gen_counter st)
       | None => false
       end.

Definition can_redo (st : State) : bool :=
  if dict_empty (generation_history st) then false
  else match py_max (available_gens st) with
       | Some m => bool_decide (gen_counter st < m)
       | None => false
       end.

Definition clear_history (st : State) : State := set_history ∅ st.

(** ** [history_manager]: persistence *)

(** [str(gen)] on an integer, and [int(gen)] on the decimal strings [str]
    produces (with or without leading zeros).  The other spellings that
    Python's [int] accepts (blanks, a plus sign, underscores) count as
    malformed here. *)
Definition str (z : Z) : string := NilZero.string_of_int (Z.to_int z).

Definition int (s : string) : option Z :=
  Z.of_int <$> NilZero.int_of_string s.

(** The object stored in [HISTORY_FILE], each field possibly absent; the
    items of the inner object come in the order of the text. *)
Record document := {
  doc_history : option (list (string * grid));
  doc_current_gen : option Z;
  doc_grid_state : option grid
}.

Inductive file :=
  | Missing                  (* os.path.exists is false *)
  | Unreadable               (* open or json.load raises *)
  | Json (data : document).

(** How the attempt to write goes. *)
Inductive io := Succeeds | OpenFails | DumpFails.

(** The items of ["history"] are listed in the order of [map_to_list], where
    Python lists them in the order of insertion; the keys being distinct,
    what is read back does not depend on that order.  An [open] that fails
    leaves the file as it was, a [json.dump] that fails leaves a file that
    does not parse; both exceptions are swallowed. *)

Definition save_history_to_file (w : io) (st : State) (f : file) : file :=
  match w with
  | OpenFails => f
  | DumpFails => Unreadable
  | Succeeds =>
      let history_data :=
        (λ item : Z * grid, (str item.1, item.2)) <$>
          map_to_list (generation_history st) in
      Json {| doc_history := Some history_data;
              doc_current_gen := Some (gen_counter st);
              doc_grid_state := Some (T st) |}
  end.

(** [{int(gen): state for gen, state in history_data.items()}]; [None] is
    the [ValueError] of [int]. *)
Fixpoint int_keys (items : list (string * grid)) (acc : gmap Z grid)
  : option (gmap Z grid) :=
  match items with
  | [] => Some acc
  | (gen, state) :: rest => k ← int gen; int_keys rest (<[k := state]> acc)
  end.

(** The guarded copy of [load_history_from_file]. *)
Fixpoint clip_row (i : nat) (cells : list Z) (j : nat) (g : grid) : grid :=
  match cells with
  | [] => g
  | v :: rest =>
      clip_row i rest (S j) (if in_bounds g i j then store g i j v else g)
  end.

Fixpoint clip_rows (rows : grid) (i : nat) (g : grid) : grid :=
  match rows with
  | [] => g
  | row :: rest => clip_rows rest (S i) (clip_row i row 0 g)
  end.

(** Every exception is swallowed by the [except] clause; the only one that
    can occur past [json.load] is the [ValueError] of [int], raised before
    anything is assigned. *)
Definition load_history_from_file (f : file) (st : State) : State :=
  match f with
  | Missing => st
  | Unreadable => st
  | Json data =>
      let history_data := default [] (doc_history data) in
      match int_keys history_data ∅ with
      | None => st
      | Some h =>
          let st1 :=
            set_gen_counter (default 0 (doc_current_gen data))
                            (set_history h st) in
          match doc_grid_state data with
          | Some saved_grid =>
              if Py.truthy saved_grid && Py.truthy (T st1)
              then set_T (clip_rows saved_grid 0 (T st1)) st1
              else st1
          | None => st1
          end
      end
  end.

(** ** Drivers *)

(** A call of [save_state_to_history] made when the counter is [entry.1] and
    the live grid is [entry.2]. *)
Definition record (st : State) (entry : Z * grid) : State :=
  save_state_to_history (set_gen_counter entry.1 (set_T entry.2 st)).

Definition record_all (entries : list (Z * grid)) (st : State) : State :=
  foldl record st entries.

(** The globals as the two modules initialise them. *)
Definition initial : State :=
  {| T := []; Tnext := []; n := 30; gen_counter := 0;
     stop_event := false; running := false; step_event := false;
     redraw_event := false; speed := 5%Q; slept := 0%Q;
     generation_history := ∅ |}.

(** What [start_workers(grid_size)] leaves in the globals, no thread of a
    former call being alive.  The threads it starts and their barrier are
    the rounds and the barrier action above. *)
Definition start_workers (grid_size : nat) (st : State) : State :=
  {| T := make_grid grid_size; Tnext := make_grid grid_size; n := grid_size;
     gen_counter := 0; stop_event := false; running := false;
     step_event := step_event st; redraw_event := redraw_event st;
     speed := speed st; slept := slept st;
     generation_history := generation_history st |}.

(** ** Vocabulary of the specification *)

(** A grid of logical size [n]: [(n + 2)] rows of [(n + 2)] cells. *)
Definition shaped (n : nat) (g : grid) : Prop :=
  length g = (n + 2)%nat ∧ Forall (λ row, length row = (n + 2)%nat) g.

(** Every cell is dead (0) or alive (1). *)
Definition binary (g : grid) : Prop :=
  Forall (Forall (λ c, c = 0 ∨ c = 1)) g.

Global Instance shaped_dec n g : Decision (shaped n g).
Proof. unfold shaped. apply _. Defined.

Global Instance binary_dec g : Decision (binary g).
Proof. unfold binary. apply _. Defined.

Definition interior (n : nat) (i j : Z) : Prop :=
  1 <= i <= Z.of_nat n ∧ 1 <= j <= Z.of_nat n.

Definition on_border (n : nat) (i j : Z) : Prop :=
  0 <= i <= Z.of_nat n + 1 ∧ 0 <= j <= Z.of_nat n + 1 ∧
  (i = 0 ∨ i = Z.of_nat n + 1 ∨ j = 0 ∨ j = Z.of_nat n + 1).

Definition dead_border (n : nat) (g : grid) : Prop :=
  ∀ i j, on_border n i j → cell g i j = Some 0.

Global Instance on_border_dec n i j : Decision (on_border n i j).
Proof. unfold on_border. apply _. Defined.

Global Instance dead_border_dec n g : Decision (dead_border n g).
Proof.
  destruct (decide (Forall (λ i, Forall (λ j,
              on_border n i j → cell g i j = Some 0)
              (seqZ 0 (Z.of_nat n + 2))) (seqZ 0 (Z.of_nat n + 2))))
    as [Hyes|Hno]; [left|right].
  - intros i j Hb. rewrite Forall_forall in Hyes.
    assert (i ∈ seqZ 0 (Z.of_nat n + 2)) as Hi.
    { apply elem_of_seqZ. unfold on_border in Hb. lia. }
    specialize (Hyes i Hi). rewrite Forall_forall in Hyes.
    apply (Hyes j); [|done].
    apply elem_of_seqZ. unfold on_border in Hb. lia.
  - intros Hdead. apply Hno. apply Forall_forall. intros i _.
    apply Forall_forall. intros j _. apply Hdead.
Defined.

Definition alive (g : grid) (i j : Z) : Prop := cell g i j = Some 1.

Global Instance alive_dec g i j : Decision (alive g i j).
Proof. unfold alive. apply _. Defined.

Definition around (i j : Z) : list (Z * Z) :=
  [(i - 1, j - 1); (i - 1, j); (i - 1, j + 1);
   (i, j - 1); (i, j + 1);
   (i + 1, j - 1); (i + 1, j); (i + 1, j + 1)].

(** Conway's rule as the specification words it: the number of alive cells
    among the eight neighbours decides. *)
Definition alive_count (g : grid) (i j : Z) : nat :=
  length (filter (λ p, alive g p.1 p.2) (around i j)).

Definition conway (g : grid) (i j : Z) : Z :=
  if decide (alive g i j)
  then (if decide (alive_count g i j = 2%nat ∨ alive_count g i j = 3%nat)
        then 1 else 0)
  else (if decide (alive_count g i j = 3%nat) then 1 else 0).


(** The keys of a history are exactly the integers of [[lo, hi)]. *)
Definition window (h : gmap Z grid) (lo hi : Z) : Prop :=
  (∀ x, is_Some (h !! x) ↔ lo <= x < hi) ∧ Z.of_nat (size h) = hi - lo.

(** [k] is a key of the history. *)
Definition stored (st : State) (k : Z) : Prop :=
  is_Some (generation_history st !! k).

(** The largest stored generation strictly below the counter. *)
Definition undo_target (st : State) (k : Z) : Prop :=
  stored st k ∧ k < gen_counter st ∧
  map_Forall (λ k' _, k' < gen_counter st → k' <= k) (generation_history st).

(** The smallest stored generation strictly above the counter. *)
Definition redo_target (st : State) (k : Z) : Prop :=
  stored st k ∧ gen_counter st < k ∧
  map_Forall (λ k' _, gen_counter st < k' → k <= k') (generation_history st).

(** No stored generation lies strictly below, or strictly above, the
    counter. *)
Definition nothing_below (st : State) : Prop :=
  map_Forall (λ k _, ¬ k < gen_counter st) (generation_history st).

Definition nothing_above (st : State) : Prop :=
  map_Forall (λ k _, ¬ gen_counter st < k) (generation_history st).

Global Instance undo_target_dec st k : Decision (undo_target st k).
Proof. unfold undo_target, stored. apply _. Defined.

Global Instance redo_target_dec st k : Decision (redo_target st k).
Proof. unfold redo_target, stored. apply _. Defined.

Global Instance nothing_below_dec st : Decision (nothing_below st).
Proof. unfold nothing_below. apply _. Defined.

Global Instance nothing_above_dec st : Decision (nothing_above st).
Proof. unfold nothing_above. apply _. Defined.

(** Every cell of the stored grid has a cell of the live grid at its
    indices. *)
Definition fits (state live : grid) : Prop :=
  ∀ i j, is_Some (lookup2 state i j) → is_Some (lookup2 live i j).

(** As many rows, and rows of the same lengths. *)
Definition same_shape (g1 g2 : grid) : Prop :=
  Forall2 (λ r1 r2 : list Z, length r1 = length r2) g1 g2.

Global Instance same_shape_dec g1 g2 : Decision (same_shape g1 g2).
Proof. unfold same_shape. apply _. Defined.

(** The live grid after a copy of the stored cells that exist on both
    sides: such a cell holds the stored value, any other cell is as before. *)
Definition overlaid (state live result : grid) : Prop :=
  length result = length live ∧
  ∀ i j, lookup2 result i j =
         match lookup2 state i j, lookup2 live i j with
         | Some v, Some _ => Some v
         | _, _ => lookup2 live i j
         end.

(** What a successful restore leaves behind. *)
Definition restored (st : State) (k : Z) (state : grid) (st' : State) : Prop :=
  gen_counter st' = k ∧
  overlaid state (T st) (T st') ∧
  (same_shape state (T st) → T st' = state) ∧
  generation_history st' = generation_history st ∧
  redraw_event st' = true.

Global Instance fits_dec state live : Decision (fits state live).
Proof.
  destruct (decide (Forall (λ i, Forall (λ j,
              is_Some (lookup2 state i j) → is_Some (lookup2 live i j))
              (seq 0 (length (state !!! i)))) (seq 0 (length state))))
    as [Hyes|Hno]; [left|right].
  - intros i j [v Hv]. unfold lookup2 in Hv.
    destruct (state !! i) as [row|] eqn:Hrow; simpl in Hv; [|done].
    rewrite Forall_forall in Hyes.
    assert (i ∈ seq 0 (length state)) as Hi.
    { apply elem_of_seq. split; [lia|]. simpl. by eapply lookup_lt_Some. }
    specialize (Hyes i Hi).
    rewrite (list_lookup_total_correct _ _ _ Hrow) in Hyes.
    rewrite Forall_forall in Hyes. apply (Hyes j).
    + apply elem_of_seq. split; [lia|]. simpl. by eapply lookup_lt_Some.
    + unfold lookup2. rewrite Hrow. simpl. by exists v.
  - intros Hfit. apply Hno. apply Forall_forall. intros i _.
    apply Forall_forall. intros j _. apply Hfit.
Defined.

(** The grid of logical size [n] whose cell [(i, j)] is alive when
    [f i j] holds. *)
Definition grid_of (n : nat) (f : Z → Z → bool) : grid :=
  (λ i, (λ j, if f i j then 1 else 0) <$> seqZ 0 (Z.of_nat n + 2))
    <$> seqZ 0 (Z.of_nat n + 2).

(** The blinker centred at [(r, c)], standing and lying. *)
Definition blinker_v (n : nat) (r c : Z) : grid :=
  grid_of n (λ i j, bool_decide (j = c ∧ r - 1 <= i <= r + 1)).

Definition blinker_h (n : nat) (r c : Z) : grid :=
  grid_of n (λ i j, bool_decide (i = r ∧ c - 1 <= j <= c + 1)).

Definition away_from_border (n : nat) (r c : Z) : Prop :=
  2 <= r <= Z.of_nat n - 1 ∧ 2 <= c <= Z.of_nat n - 1.

(** ** Sample data *)

(** A glider on a grid of logical size 3. *)
Definition glider : grid :=
  [[0;0;0;0;0]; [0;0;1;0;0]; [0;0;0;1;0]; [0;1;1;1;0]; [0;0;0;0;0]].


(** A history of two snapshots, the live grid being the second one. *)
Definition two_snapshots : State :=
  set_gen_counter 4
    (set_history (<[4 := glider]> (<[1 := make_grid 3]> ∅))
       (set_T glider (start_workers 3 initial))).

(** A snapshot write that runs out of memory while copying the grid. *)
Definition failing_snapshot (st : State) : outcome unit :=
  Raised MemoryError st.

(** A standing blinker in the middle of a grid of logical size 5, right
    after [start_workers(5)]. *)
Definition blinker_session : State :=
  set_T (blinker_v 5 3 3) (start_workers 5 initial).

(** A session on a grid of logical size 6: at generation 0 its only alive
    cell is the interior cell [(6, 6)], which is recorded; [corner_file] is
    the file a clean shutdown leaves at that point. *)
Definition corner_grid : grid := grid_of 6 (λ i j, bool_decide (i = 6 ∧ j = 6)).

Definition corner_session : State := record (start_workers 6 initial) (0, corner_grid).

Definition corner_file : file :=
  save_history_to_file Succeeds corner_session Missing.

(** The same session one generation later (the lone cell has died), the
    file it leaves, and a process on a grid of logical size 5 that has
    loaded that file. *)
Definition later_session : State := record corner_session (1, make_grid 6).

Definition later_file : file :=
  save_history_to_file Succeeds later_session Missing.

Definition resumed_smaller : State :=
  load_history_from_file later_file (start_workers 5 initial).

(** ** Tactics *)

(** Closes a decidable goal on concrete data by evaluating its decision
    procedure. *)
Ltac by_computation := apply (bool_decide_unpack _); vm_compute; exact I.

(** Settles on which side of each pattern bound the nine cells lie, once
    the position of the centre is known up to the offsets that matter. *)
Ltac settle_cells :=
  repeat match goal with
  | |- context [bool_decide ?P] =>
      first [ rewrite (bool_decide_eq_true_2 P) by lia
            | rewrite (bool_decide_eq_false_2 P) by lia ]
  end.

Ltac split_offsets i r :=
  assert (i <= r - 3 ∨ i = r - 2 ∨ i = r - 1 ∨ i = r ∨ i = r + 1 ∨
          i = r + 2 ∨ r + 3 <= i) as [?|[?|[?|[?|[?|[?|?]]]]]] by lia.

(** ** More of the two modules *)

(** The globals an outcome leaves, returned or raised. *)
Definition state_of {A} (o : outcome A) : State :=
  match o with
  | Returned _ st => st
  | Raised _ st => st
  end.

(** A history holding the generations 1 to 100, the counter being back at
    0. *)
Definition full_history : State :=
  set_gen_counter 0
    (record_all (zip (seqZ 1 100) (replicate 100 (make_grid 1)))
       (start_workers 1 initial)).

(** An ASCII letter: no spelling of an integer that Python's [int] accepts
    in base 10 contains one. *)
Definition letter (a : Ascii.ascii) : Prop :=
  (97 ≤ Ascii.nat_of_ascii a ≤ 122)%nat ∨
  (65 ≤ Ascii.nat_of_ascii a ≤ 90)%nat.

Global Instance letter_dec a : Decision (letter a).
Proof. unfold letter. apply _. Defined.

Definition has_letter (s : string) : Prop :=
  Exists letter (String.list_ascii_of_string s).

Global Instance has_letter_dec s : Decision (has_letter s).
Proof. unfold has_letter. apply _. Defined.

(** A history file whose second key is not a number. *)
Definition garbled_file : file :=
  Json {| doc_history := Some [("3"%string, glider); ("4a"%string, glider)];
          doc_current_gen := Some 9;
          doc_grid_state := Some (make_grid 3) |}.

(** *** [set_speed], [get_speed] *)

(** [float(new_speed)] is the number itself. *)
Definition set_speed (new_speed : Q) (st : State) : State :=
  {| T := T st; Tnext := Tnext st; n := n st; gen_counter := gen_counter st;
     stop_event := stop_event st; running := running st;
     step_event := step_event st; redraw_event := redraw_event st;
     speed := new_speed; slept := slept st;
     generation_history := generation_history st |}.


(** *** Several generations in a row *)

(** One generation per schedule; [None] when a round or a barrier action
    does not come to its end. *)
Fixpoint generations (scheds : list (list (Z * Z))) (st : State)
  : option State :=
  match scheds with
  | [] => Some st
  | sched :: rest =>
      match generation sched st with
      | Some (Returned _ st') => generations rest st'
      | _ => None
      end
  end.

(** What the engine relies on between two generations: both grids have the
    logical size [n] and a dead border, the current grid holds zeros and
    ones, and the history is within its bound. *)
Definition healthy (st : State) : Prop :=
  shaped (n st) (T st) ∧ shaped (n st) (Tnext st) ∧
  binary (T st) ∧
  dead_border (n st) (T st) ∧ dead_border (n st) (Tnext st) ∧
  (size (generation_history st) ≤ MAX_HISTORY_GENERATIONS)%nat.

Global Instance healthy_dec st : Decision (healthy st).
Proof. unfold healthy. apply _. Defined.

(** The 2x2 block whose upper left cell is [(r, c)]. *)
Definition block (n : nat) (r c : Z) : grid :=
  grid_of n (λ i j, bool_decide (r <= i <= r + 1 ∧ c <= j <= c + 1)).

Definition block_session : State := set_T (block 5 1 4) (start_workers 5 initial).

(** ** [gui_game.ModernApp]: the handlers, seen from the engine *)

(** [Event.set()] and [Event.clear()] on the three events the handlers
    use. *)
Definition running_set (st : State) : State :=
  set_events true (step_event st) (redraw_event st) st.

Definition running_clear (st : State) : State :=
  set_events false (step_event st) (redraw_event st) st.

Definition step_set (st : State) : State :=
  set_events (running st) true (redraw_event st) st.

Definition redraw_set (st : State) : State :=
  set_events (running st) (step_event st) true st.

(** The handlers of the game window, as what they do to the globals of
    [gamelife_core] and [history_manager].  What they do to widgets (button
    texts, labels, the refresh of the undo and redo buttons, which only
    reads [can_undo] and [can_redo]) changes none of these globals and is
    left out.  A handler is taken as a whole, no generation being in
    progress while it runs.  [answer] is what the user answers to the
    confirmation dialog, when the handler opens one; [None] is an exception
    leaving the handler. *)
Module ModernApp.

(** The opening of [clear], [randomize], [undo] and [redo]: stop the
    simulation if it runs. *)
Definition pause (st : State) : State :=
  if running st then running_clear st else st.

Definition toggle_start (st : State) : option State :=
  if running st then Some (running_clear st)
  else
    alive ← has_living_cells st;
    if alive : bool
    then Some (running_set (save_state_to_history st))
    else Some st.

Definition one_step (st : State) : option State :=
  if running st || step_event st then Some st
  else
    alive ← has_living_cells st;
    if alive : bool
    then Some (running_set (step_set (save_state_to_history st)))
    else Some st.

(** The end shared by [clear] and [randomize], the grid [g] being what
    [clear_grid] or [randomize_grid] has made of [core.T]: counter to 0,
    history emptied, state recorded, redraw requested. *)
Definition restart_with (g : grid) (st : State) : State :=
  redraw_set
    (save_state_to_history (clear_history (set_gen_counter 0 (set_T g st)))).

Definition clear (answer : bool) (st : State) : option State :=
  let st1 := pause st in
  if bool_decide (0 < gen_counter st1) && negb answer then Some st1
  else g ← clear_grid st1 (T st1); Some (restart_with g st1).

Definition randomize (draw : Z * Z → bool) (answer : bool) (st : State)
  : option State :=
  let st1 := pause st in
  if bool_decide (0 < gen_counter st1) && negb answer then Some st1
  else g ← randomize_grid draw st1 (T st1); Some (restart_with g st1).

Definition undo (st : State) : outcome bool :=
  load_state_from_history "undo" (pause st).

Definition redo (st : State) : outcome bool :=
  load_state_from_history "redo" (pause st).


End ModernApp.

(** A blinker session in the middle of a run: generation 7, running. *)
Definition running_session : State :=
  running_set (set_gen_counter 7 blinker_session).

(** ** [theme_manager] *)

(** The globals of [theme_manager] and its two JSON files.  A theme is a
    dictionary from the name of a colour role to a colour; no function of
    the program changes a theme in place, so that themes are values here.
    A file that parses is taken to hold an object of the shape that
    [save_custom_themes] and [save_config] write, each field of the
    configuration being possibly absent. *)
Module theme_manager.

Abbreviation theme := (gmap string string).

Definition dark : theme :=
  list_to_map
    [("bg", "#1a1a2e"); ("panel", "#16213e"); ("accent", "#0f3460");
     ("alive", "#00ff88"); ("dead", "#2d3561"); ("text", "#eeeeee");
     ("button_bg", "#0f3460"); ("button_hover", "#1e5f8c");
     ("button_text", "#ffffff")]%string.

Definition neon : theme :=
  list_to_map
    [("bg", "#0d0221"); ("panel", "#1b0638"); ("accent", "#2e1a47");
     ("alive", "#ff006e"); ("dead", "#1b1034"); ("text", "#fbf8f3");
     ("button_bg", "#8338ec"); ("button_hover", "#a855f7");
     ("button_text", "#ffffff")]%string.

Definition ocean : theme :=
  list_to_map
    [("bg", "#0a2463"); ("panel", "#1e3a8a"); ("accent", "#3c56a8");
     ("alive", "#00d9ff"); ("dead", "#1e3a8a"); ("text", "#e0f2fe");
     ("button_bg", "#3b82f6"); ("button_hover", "#60a5fa");
     ("button_text", "#ffffff")]%string.

Definition sunset : theme :=
  list_to_map
    [("bg", "#2d1b4e"); ("panel", "#3d2963"); ("accent", "#4d3777");
     ("alive", "#ff6b9d"); ("dead", "#3d2963"); ("text", "#fff0f5");
     ("button_bg", "#c026d3"); ("button_hover", "#d946ef");
     ("button_text", "#ffffff")]%string.

Definition DEFAULT_THEMES : gmap string theme :=
  list_to_map
    [("dark", dark); ("neon", neon); ("ocean", ocean);
     ("sunset", sunset)]%string.

Record Globals := {
  THEMES : gmap string theme;
  current_theme : theme;
  current_theme_name : string
}.

(** The globals when the module has just been imported. *)
Definition imported : Globals :=
  {| THEMES := DEFAULT_THEMES; current_theme := dark;
     current_theme_name := "dark" |}.

Definition set_THEMES (themes : gmap string theme) (g : Globals) : Globals :=
  {| THEMES := themes; current_theme := current_theme g;
     current_theme_name := current_theme_name g |}.

Definition set_current (name : string) (t : theme) (g : Globals) : Globals :=
  {| THEMES := THEMES g; current_theme := t; current_theme_name := name |}.

Inductive json_file (A : Type) :=
  | Absent                   (* os.path.exists is false *)
  | Corrupt                  (* open or json.load raises *)
  | Holds (content : A).
Arguments Absent {A}.
Arguments Corrupt {A}.
Arguments Holds {A} content.

(** The object of [CONFIG_FILE]. *)
Record config := {
  cfg_theme : option string;
  cfg_speed : option Q;
  cfg_was_running : option bool
}.

(** What a write leaves in a file: a failed [open] leaves it as it was, a
    failed [json.dump] leaves a text that does not parse; the exception is
    swallowed in both cases. *)
Definition dump {A} (w : io) (content : A) (f : json_file A) : json_file A :=
  match w with
  | OpenFails => f
  | DumpFails => Corrupt
  | Succeeds => Holds content
  end.

(** [THEMES.update(custom)] is the union in which [custom] wins. *)
Definition load_custom_themes (f : json_file (gmap string theme))
    (g : Globals) : Globals :=
  let g1 := set_THEMES DEFAULT_THEMES g in
  match f with
  | Holds custom => set_THEMES (custom ∪ THEMES g1) g1
  | _ => g1
  end.

Definition save_custom_themes (w : io) (g : Globals)
    (f : json_file (gmap string theme)) : json_file (gmap string theme) :=
  let custom :=
    filter (λ kv : string * theme, DEFAULT_THEMES !! kv.1 = None) (THEMES g) in
  dump w custom f.

Definition save_config (w : io) (g : Globals) (st : State)
    (f : json_file config) : json_file config :=
  let cfg := {| cfg_theme := Some (current_theme_name g);
                cfg_speed := Some (speed st);
                cfg_was_running := Some (running st) |} in
  dump w cfg f.

(** The globals of the module, those of the engine that the module reads
    and writes, and the two files. *)
Record World := {
  globals : Globals;
  engine : State;
  custom_themes_file : json_file (gmap string theme);
  config_file : json_file config
}.

Inductive answer := Says (b : bool) | Raises (e : exn).

(** [w1] is the write of the themes, [w2] that of the configuration. *)
Definition delete_custom_theme (w1 w2 : io) (theme_name : string)
    (wd : World) : answer * World :=
  let g := globals wd in
  if bool_decide (is_Some (DEFAULT_THEMES !! theme_name)) then
    (Says false, wd)
  else if bool_decide (is_Some (THEMES g !! theme_name)) then
    let g1 := set_THEMES (delete theme_name (THEMES g)) g in
    let tf := save_custom_themes w1 g1 (custom_themes_file wd) in
    if bool_decide (current_theme_name g1 = theme_name) then
      match THEMES g1 !! "dark"%string with
      | None =>
          (Raises KeyError,
           {| globals := set_current "dark" (current_theme g1) g1;
              engine := engine wd; custom_themes_file := tf;
              config_file := config_file wd |})
      | Some t =>
          let g2 := set_current "dark" t g1 in
          (Says true,
           {| globals := g2; engine := engine wd; custom_themes_file := tf;
              config_file := save_config w2 g2 (engine wd) (config_file wd) |})
      end
    else
      (Says true,
       {| globals := g1; engine := engine wd; custom_themes_file := tf;
          config_file := config_file wd |})
  else (Says false, wd).

(** [THEMES.get(theme_name, THEMES["dark"])] evaluates its default first:
    without a theme ["dark"] the [KeyError] is swallowed once the name has
    been assigned, and [was_running] stays [False]. *)
Definition load_config (wd : World) : bool * World :=
  let g1 := load_custom_themes (custom_themes_file wd) (globals wd) in
  match config_file wd with
  | Holds cfg =>
      let theme_name := default "dark"%string (cfg_theme cfg) in
      let g2 := set_current theme_name (current_theme g1) g1 in
      match THEMES g2 !! "dark"%string with
      | None =>
          (false,
           {| globals := g2; engine := engine wd;
              custom_themes_file := custom_themes_file wd;
              config_file := config_file wd |})
      | Some fallback =>
          let g3 :=
            set_current theme_name
                        (default fallback (THEMES g2 !! theme_name)) g2 in
          let st := set_speed (default (speed (engine wd)) (cfg_speed cfg))
                              (engine wd) in
          (default false (cfg_was_running cfg),
           {| globals := g3; engine := st;
              custom_themes_file := custom_themes_file wd;
              config_file := config_file wd |})
      end
  | _ =>
      (false,
       {| globals := g1; engine := engine wd;
          custom_themes_file := custom_themes_file wd;
          config_file := config_file wd |})
  end.

Definition change_theme (w : io) (theme_name : string) (wd : World)
  : bool * World :=
  match THEMES (globals wd) !! theme_name with
  | Some t =>
      let g := set_current theme_name t (globals wd) in
      (true,
       {| globals := g; engine := engine wd;
          custom_themes_file := custom_themes_file wd;
          config_file := save_config w g (engine wd) (config_file wd) |})
  | None => (false, wd)
  end.

(** Every default theme is in [THEMES], under its own name and with its own
    colours or others. *)
Definition defaults_present (g : Globals) : Prop :=
  ∀ name, is_Some (DEFAULT_THEMES !! name) → is_Some (THEMES g !! name).

End theme_manager.

(** The active name designates the active colours. *)
Definition consistent (g : theme_manager.Globals) : Prop :=
  theme_manager.THEMES g !! theme_manager.current_theme_name g
  = Some (theme_manager.current_theme g).

(** A world in which a custom theme is the active one. *)
Definition custom_world : theme_manager.World :=
  {| theme_manager.globals :=
       {| theme_manager.THEMES :=
            <["mine"%string := theme_manager.neon]>
              theme_manager.DEFAULT_THEMES;
          theme_manager.current_theme := theme_manager.neon;
          theme_manager.current_theme_name := "mine" |};
     theme_manager.engine := running_session;
     theme_manager.custom_themes_file := theme_manager.Absent;
     theme_manager.config_file := theme_manager.Absent |}.

(** The files of a session closed with a theme that was deleted from the
    themes file afterwards. *)
Definition dangling_world : theme_manager.World :=
  {| theme_manager.globals := theme_manager.imported;
     theme_manager.engine := blinker_session;
     theme_manager.custom_themes_file := theme_manager.Holds ∅;
     theme_manager.config_file :=
       theme_manager.Holds
         {| theme_manager.cfg_theme := Some "mine"%string;
            theme_manager.cfg_speed := Some 8%Q;
            theme_manager.cfg_was_running := Some true |} |}.
(** * Properties *)

(** ** Indexing *)

Lemma getitem_nonneg {A} (l : list A) (k : Z) :
  0 <= k → Py.getitem l k = l !! Z.to_nat k.
Proof.
  intros Hk. unfold Py.getitem, Py.norm_index.
  rewrite decide_True by done. case_decide; simpl; [done|].
  symmetry. apply lookup_ge_None. lia.
Qed.

Lemma setitem_inside {A} (l : list A) (k : Z) (v : A) :
  0 <= k < Z.of_nat (length l) →
  Py.setitem l k v = Some (<[Z.to_nat k := v]> l).
Proof.
  intros Hk. unfold Py.setitem, Py.norm_index.
  rewrite !decide_True by lia. done.
Qed.

Lemma cell_nonneg (g : grid) (i j : Z) :
  0 <= i → 0 <= j →
  cell g i j = g !! Z.to_nat i ≫= (λ row, row !! Z.to_nat j).
Proof.
  intros Hi Hj. unfold cell. rewrite getitem_nonneg by done.
  destruct (g !! Z.to_nat i) as [row|]; simpl; [|done].
  by rewrite getitem_nonneg.
Qed.

Lemma shaped_row n (g : grid) (i : nat) :
  shaped n g → (i < n + 2)%nat →
  ∃ row, g !! i = Some row ∧ length row = (n + 2)%nat.
Proof.
  intros [Hlen Hrows] Hi.
  destruct (lookup_lt_is_Some_2 g i) as [row Hrow]; [lia|].
  exists row. split; [done|].
  by apply (Forall_lookup_1 _ _ _ _ Hrows Hrow).
Qed.

Lemma shaped_cell n (g : grid) (i j : Z) :
  shaped n g → 0 <= i <= Z.of_nat n + 1 → 0 <= j <= Z.of_nat n + 1 →
  is_Some (cell g i j).
Proof.
  intros Hg Hi Hj. rewrite cell_nonneg by lia.
  destruct (shaped_row n g (Z.to_nat i) Hg) as (row & -> & Hlen); [lia|].
  simpl. apply lookup_lt_is_Some_2. lia.
Qed.

Lemma binary_cell (g : grid) (i j : Z) (v : Z) :
  binary g → cell g i j = Some v → v = 0 ∨ v = 1.
Proof.
  unfold cell, Py.getitem. intros Hb Hc.
  destruct (Py.norm_index (length g) i) as [a|]; simpl in Hc; [|done].
  destruct (g !! a) as [row|] eqn:Hrow; simpl in Hc; [|done].
  destruct (Py.norm_index (length row) j) as [b|]; simpl in Hc; [|done].
  pose proof (Forall_lookup_1 _ _ _ _ Hb Hrow) as Hr.
  by apply (Forall_lookup_1 _ _ _ _ Hr Hc).
Qed.

(** Writing a cell of a shaped grid succeeds, keeps the shape and changes
    that cell only. *)
Lemma setcell_shaped n (g : grid) (i j v : Z) :
  shaped n g → 0 <= i <= Z.of_nat n + 1 → 0 <= j <= Z.of_nat n + 1 →
  ∃ g', setcell g i j v = Some g' ∧ shaped n g' ∧
        ∀ a b, 0 <= a → 0 <= b →
               cell g' a b = if decide (a = i ∧ b = j) then Some v
                             else cell g a b.
Proof.
  intros Hg Hi Hj.
  destruct (shaped_row n g (Z.to_nat i) Hg) as (row & Hrow & Hlen); [lia|].
  destruct Hg as [Hlg Hrows].
  exists (<[Z.to_nat i := <[Z.to_nat j := v]> row]> g).
  split; [|split].
  - unfold setcell. rewrite getitem_nonneg, Hrow by lia. simpl.
    rewrite setitem_inside by lia. simpl.
    by rewrite setitem_inside by lia.
  - split; [by rewrite length_insert|].
    apply Forall_insert; [done|]. by rewrite length_insert.
  - intros a b Ha Hb. rewrite !cell_nonneg by lia.
    destruct (decide (Z.to_nat a = Z.to_nat i)) as [Hai|Hai].
    + rewrite Hai, list_lookup_insert_eq by lia. rewrite Hrow. simpl.
      destruct (decide (Z.to_nat b = Z.to_nat j)) as [Hbj|Hbj].
      * rewrite Hbj, list_lookup_insert_eq by lia.
        rewrite decide_True by lia. done.
      * rewrite list_lookup_insert_ne by done.
        rewrite decide_False by lia. done.
    + rewrite list_lookup_insert_ne by done.
      rewrite decide_False by lia. done.
Qed.

(** ** The rule computed by a cell thread *)

Lemma length_filter_cons {A} (P : A → Prop) `{∀ x, Decision (P x)} x l :
  length (filter P (x :: l)) =
  ((if decide (P x) then 1 else 0) + length (filter P l))%nat.
Proof. rewrite filter_cons. by case_decide. Qed.

Lemma alive_indicator (g : grid) (p : Z * Z) (v : Z) :
  cell g p.1 p.2 = Some v → v = 0 ∨ v = 1 →
  Z.of_nat (if decide (alive g p.1 p.2) then 1 else 0) = v.
Proof.
  intros Hc Hv. case_decide as Ha; unfold alive in Ha; rewrite Hc in Ha;
    destruct Hv as [-> | ->]; simplify_eq; done.
Qed.

(** On a grid of zeros and ones the sum the thread computes is the number of
    alive neighbours. *)
Lemma neighbors_alive_count n (T : grid) (i j : Z) :
  shaped n T → binary T → interior n i j →
  neighbors T i j = Some (Z.of_nat (alive_count T i j)).
Proof.
  intros Hs Hb [Hi Hj].
  assert (∀ p, p ∈ around i j → ∃ v, cell T p.1 p.2 = Some v ∧ (v = 0 ∨ v = 1))
    as Hcells.
  { intros [a b] Hp. unfold around in Hp.
    assert (0 <= a <= Z.of_nat n + 1 ∧ 0 <= b <= Z.of_nat n + 1) as [Ha Hb'].
    { repeat (apply elem_of_cons in Hp as [[= -> ->]|Hp]; [lia|]).
      by apply elem_of_nil in Hp. }
    destruct (shaped_cell n T a b Hs Ha Hb') as [v Hv].
    exists v. split; [done|]. by eapply binary_cell. }
  unfold alive_count, neighbors.
  unfold around in *.
  repeat match goal with
  | |- context [cell T ?a ?b ≫= _] =>
      let v := fresh "v" in let Hv := fresh "Hv" in let Hb := fresh "Hb" in
      destruct (Hcells (a, b)) as (v & Hv & Hb);
        [repeat first [apply list_elem_of_here | apply list_elem_of_further]|];
      simpl in Hv; rewrite Hv; simpl;
      pose proof (alive_indicator T (a, b) v Hv Hb)
  end.
  f_equal. rewrite !length_filter_cons, filter_nil. simpl length.
  simpl in *. lia.
Qed.

Lemma next_value_conway n (T : grid) (i j : Z) :
  shaped n T → binary T → interior n i j →
  next_value T i j = Some (conway T i j).
Proof.
  intros Hs Hb Hij. unfold next_value.
  rewrite (neighbors_alive_count n) by done. simpl.
  destruct (shaped_cell n T i j Hs) as [c Hc];
    [unfold interior in Hij; lia..|].
  rewrite Hc. simpl. unfold conway.
  repeat case_decide; f_equal;
    repeat match goal with
    | H : alive _ _ _ |- _ => unfold alive in H; rewrite Hc in H
    | H : ¬ alive _ _ _ |- _ => unfold alive in H; rewrite Hc in H
    end; simplify_eq; try done; try lia.
Qed.

(** ** A round of computation *)

Lemma elem_of_range1 n (i : Z) : i ∈ range1 n ↔ 1 <= i <= Z.of_nat n.
Proof. unfold range1. rewrite elem_of_seqZ. lia. Qed.

Lemma elem_of_interior_cells n (i j : Z) :
  (i, j) ∈ interior_cells n ↔ interior n i j.
Proof.
  unfold interior_cells, interior. rewrite list_elem_of_bind. split.
  - intros (a & Hin & Ha). apply list_elem_of_fmap in Hin as (b & [= -> ->] & Hb).
    by rewrite <- !elem_of_range1.
  - intros [Hi Hj]. exists i. rewrite list_elem_of_fmap.
    split; [|by apply elem_of_range1]. exists j.
    split; [done|]. by apply elem_of_range1.
Qed.

(** A round over interior cells never fails; it keeps the shape of [Tnext],
    leaves every cell outside the schedule as it was, and every scheduled
    cell holds the value computed from [T]. *)
Lemma compute_round_spec n (sched : list (Z * Z)) (T Tnext : grid) :
  shaped n T → shaped n Tnext →
  (∀ p, p ∈ sched → interior n p.1 p.2) →
  ∃ Tnext', compute_round sched T Tnext = Some Tnext' ∧ shaped n Tnext' ∧
    ∀ a b, 0 <= a → 0 <= b →
      cell Tnext' a b = if decide ((a, b) ∈ sched) then next_value T a b
                        else cell Tnext a b.
Proof.
  intros HT. revert Tnext.
  induction sched as [|[i j] rest IH]; intros Tnext HN Hall.
  - exists Tnext. split; [done|]. split; [done|].
    intros a b _ _. rewrite decide_False; [done|]. apply not_elem_of_nil.
  - assert (interior n i j) as Hij by (apply (Hall (i, j)); left).
    assert (is_Some (next_value T i j)) as [v Hv].
    { unfold next_value, neighbors. destruct Hij as [Hi Hj].
      repeat match goal with
      | |- context [cell T ?a ?b ≫= _] =>
          let w := fresh "w" in let Hw := fresh "Hw" in
          destruct (shaped_cell n T a b HT) as [w Hw]; [lia..|];
          rewrite Hw; simpl
      end.
      repeat case_decide; done. }
    destruct (setcell_shaped n Tnext i j v HN) as (N1 & Hset & HN1 & Hget);
      [unfold interior in Hij; lia..|].
    destruct (IH N1 HN1) as (N2 & Hrun & HN2 & Hfin).
    { intros p Hp. apply Hall. by right. }
    exists N2. split; [|split; [done|]].
    + simpl. unfold cell_step. simpl. rewrite Hv. simpl. by rewrite Hset.
    + intros a b Ha Hb. rewrite Hfin by done.
      destruct (decide ((a, b) ∈ rest)) as [Hin|Hin].
      * rewrite decide_True; [done|]. by right.
      * rewrite Hget by done.
        destruct (decide (a = i ∧ b = j)) as [[-> ->]|Hne].
        -- rewrite decide_True; [done|]. left.
        -- rewrite decide_False; [done|].
           rewrite elem_of_cons. intros [[= -> ->]|?]; [by apply Hne|done].
Qed.

(** C1: for every interior cell [(i, j)], a round of the cell threads,
    whatever the order in which the threads run, stores in the next grid at
    [(i, j)] the Conway update of the current grid: 1 for an alive cell with
    exactly 2 or 3 alive neighbours, 1 for a dead cell with exactly 3, and 0
    otherwise. *)
Theorem round_writes_conway n (sched : list (Z * Z)) (T Tnext : grid) (i j : Z) :
  shaped n T → binary T → shaped n Tnext →
  sched ≡ₚ interior_cells n → interior n i j →
  ∃ Tnext', compute_round sched T Tnext = Some Tnext' ∧
            cell Tnext' i j = Some (conway T i j).
Proof.
  intros HT Hb HN Hperm Hij.
  destruct (compute_round_spec n sched T Tnext HT HN) as (N' & Hrun & _ & Hget).
  { intros [a b] Hp. apply elem_of_interior_cells. by rewrite <- Hperm. }
  exists N'. split; [done|].
  rewrite Hget by (unfold interior in Hij; lia).
  rewrite decide_True.
  - by apply (next_value_conway n).
  - rewrite Hperm. by apply elem_of_interior_cells.
Qed.

Lemma round_writes_conway_witness :
  ∃ Tnext', compute_round (reverse (interior_cells 3)) glider (make_grid 3)
              = Some Tnext' ∧
            cell Tnext' 2 1 = Some (conway glider 2 1).
Proof.
  apply (round_writes_conway 3).
  - by_computation.
  - by_computation.
  - by_computation.
  - apply reverse_Permutation.
  - unfold interior. simpl. lia.
Defined.

(** ** [has_living_cells] *)

Lemma scan_alive_spec (g : grid) (cells : list (Z * Z)) :
  (∀ p, p ∈ cells → is_Some (cell g p.1 p.2)) →
  ∃ b, scan_alive g cells = Some b ∧
       (b = false ↔ ∀ p, p ∈ cells → cell g p.1 p.2 ≠ Some 1).
Proof.
  induction cells as [|[i j] rest IH]; intros Hdef.
  - exists false. split; [done|]. split; [|done].
    intros _ p Hp. by apply elem_of_nil in Hp.
  - destruct (Hdef (i, j)) as [c Hc]; [left|]. simpl in Hc.
    simpl. rewrite Hc. simpl. case_decide as Hone.
    + subst c. exists true. split; [done|]. split; [done|].
      intros Hall. exfalso. apply (Hall (i, j)); [left|done].
    + destruct IH as (b & Hscan & Hb).
      { intros p Hp. apply Hdef. by right. }
      exists b. split; [done|]. rewrite Hb. split.
      * intros Hall p [->|Hp]%elem_of_cons; [|by apply Hall].
        simpl. rewrite Hc. congruence.
      * intros Hall p Hp. apply Hall. by right.
Qed.

(** C9: [has_living_cells] returns, and it returns [False] exactly when every
    interior cell of the grid is 0. *)
Theorem has_living_cells_false_iff (st : State) :
  shaped (n st) (T st) → binary (T st) →
  ∃ b, has_living_cells st = Some b ∧
       (b = false ↔ ∀ i j, interior (n st) i j → cell (T st) i j = Some 0).
Proof.
  intros Hs Hb. unfold has_living_cells.
  destruct (scan_alive_spec (T st) (interior_cells (n st))) as (b & Hscan & Hiff).
  { intros [i j] Hp%elem_of_interior_cells. destruct Hp. simpl.
    apply (shaped_cell (n st)); [done|lia..]. }
  exists b. split; [done|]. rewrite Hiff. split.
  - intros Hall i j Hij.
    destruct (shaped_cell (n st) (T st) i j Hs) as [c Hc];
      [unfold interior in Hij; lia..|].
    destruct (binary_cell _ _ _ _ Hb Hc) as [-> | ->]; [done|].
    exfalso. apply (Hall (i, j)); [by apply elem_of_interior_cells|done].
  - intros Hall [i j] Hp%elem_of_interior_cells. simpl.
    rewrite (Hall i j Hp). congruence.
Qed.

Lemma has_living_cells_false_iff_witness :
  ∃ b, has_living_cells (set_T glider (start_workers 3 initial)) = Some b ∧
       (b = false ↔
        ∀ i j, interior 3 i j → cell glider i j = Some 0).
Proof.
  apply (has_living_cells_false_iff (set_T glider (start_workers 3 initial))).
  - by_computation.
  - by_computation.
Defined.

(** ** The barrier action *)

Lemma save_state_to_history_frame (st : State) :
  let st' := save_state_to_history st in
  T st' = T st ∧ Tnext st' = Tnext st ∧ n st' = n st ∧
  gen_counter st' = gen_counter st ∧ stop_event st' = stop_event st ∧
  running st' = running st ∧ step_event st' = step_event st ∧
  redraw_event st' = redraw_event st.
Proof.
  unfold save_state_to_history.
  destruct (Py.truthy (T st)); [|done].
  case_decide; [|done]. by destruct (py_min _).
Qed.

Lemma after_snapshot_frame (st : State) :
  let st' := after_snapshot st in
  T st' = T st ∧ Tnext st' = Tnext st ∧ n st' = n st ∧
  gen_counter st' = gen_counter st ∧
  generation_history st' = generation_history st ∧
  redraw_event st' = true ∧
  running st' = (if step_event st then false else running st) ∧
  step_event st' = false.
Proof.
  unfold after_snapshot. simpl.
  destruct (step_event st) eqn:Hstep; simpl; destruct (Qlt_le_dec _ _); simpl;
    by rewrite ?Hstep.
Qed.

Lemma barrier_action_returns (st : State) :
  barrier_action st =
  Returned tt (after_snapshot (save_state_to_history (swap_grids st))).
Proof. done. Qed.

Lemma barrier_action_exchanges (st : State) :
  ∃ st', barrier_action st = Returned tt st' ∧
         T st' = Tnext st ∧ Tnext st' = T st ∧
         gen_counter st' = gen_counter st + 1.
Proof.
  eexists. split; [apply barrier_action_returns|].
  destruct (after_snapshot_frame (save_state_to_history (swap_grids st)))
    as (-> & -> & _ & -> & _).
  destruct (save_state_to_history_frame (swap_grids st))
    as (-> & -> & _ & -> & _).
  done.
Qed.

(** C2: whatever the two grids and the counter [g] are, the swap of the
    barrier action, and the whole action with it, leaves the buffer that was
    [Tnext] as the grid read as [T] (and conversely), and the counter at
    [g + 1]. *)
Theorem barrier_action_swaps (st : State) :
  (T (swap_grids st) = Tnext st ∧ Tnext (swap_grids st) = T st ∧
   gen_counter (swap_grids st) = gen_counter st + 1) ∧
  ∃ st', barrier_action st = Returned tt st' ∧
         T st' = Tnext st ∧ Tnext st' = T st ∧
         gen_counter st' = gen_counter st + 1.
Proof. split; [done|apply barrier_action_exchanges]. Qed.

(** ** The bounded history *)

Lemma foldl_min_spec (l : list Z) (x : Z) :
  (foldl Z.min x l = x ∨ foldl Z.min x l ∈ l) ∧
  foldl Z.min x l <= x ∧ ∀ y, y ∈ l → foldl Z.min x l <= y.
Proof.
  revert x. induction l as [|a l IH]; intros x; simpl.
  - split; [by left|]. split; [lia|]. intros y Hy. by apply elem_of_nil in Hy.
  - destruct (IH (Z.min x a)) as (Hmem & Hle & Hall).
    split; [|split].
    + destruct Hmem as [Heq|Hin]; [|right; by right].
      rewrite Heq. destruct (Z.min_spec x a) as [[_ ->]|[_ ->]];
        [by left|right; left].
    + lia.
    + intros y [->|Hy]%elem_of_cons; [lia|by apply Hall].
Qed.

Lemma py_min_spec (l : list Z) (m : Z) :
  py_min l = Some m → m ∈ l ∧ ∀ y, y ∈ l → m <= y.
Proof.
  destruct l as [|x l]; [done|]. intros [= <-].
  destruct (foldl_min_spec l x) as (Hmem & Hle & Hall). split.
  - destruct Hmem as [->|Hin]; [left|by right].
  - intros y [->|Hy]%elem_of_cons; [done|by apply Hall].
Qed.

Lemma foldl_max_spec (l : list Z) (x : Z) :
  (foldl Z.max x l = x ∨ foldl Z.max x l ∈ l) ∧
  x <= foldl Z.max x l ∧ ∀ y, y ∈ l → y <= foldl Z.max x l.
Proof.
  revert x. induction l as [|a l IH]; intros x; simpl.
  - split; [by left|]. split; [lia|]. intros y Hy. by apply elem_of_nil in Hy.
  - destruct (IH (Z.max x a)) as (Hmem & Hle & Hall).
    split; [|split].
    + destruct Hmem as [Heq|Hin]; [|right; by right].
      rewrite Heq. destruct (Z.max_spec x a) as [[_ ->]|[_ ->]];
        [right; left|by left].
    + lia.
    + intros y [->|Hy]%elem_of_cons; [lia|by apply Hall].
Qed.

Lemma py_max_spec (l : list Z) (m : Z) :
  py_max l = Some m → m ∈ l ∧ ∀ y, y ∈ l → y <= m.
Proof.
  destruct l as [|x l]; [done|]. intros [= <-].
  destruct (foldl_max_spec l x) as (Hmem & Hle & Hall). split.
  - destruct Hmem as [->|Hin]; [left|by right].
  - intros y [->|Hy]%elem_of_cons; [done|by apply Hall].
Qed.

Lemma elem_of_keys (h : gmap Z grid) (k : Z) : k ∈ keys h ↔ is_Some (h !! k).
Proof.
  unfold keys. rewrite list_elem_of_fmap. split.
  - intros ([k' g] & -> & Hin). apply elem_of_map_to_list in Hin. by exists g.
  - intros [g Hg]. exists (k, g). split; [done|]. by apply elem_of_map_to_list.
Qed.

Lemma length_keys (h : gmap Z grid) : length (keys h) = size h.
Proof. unfold keys. by rewrite length_fmap, length_map_to_list. Qed.

(** [min] never fails where [save_state_to_history] calls it. *)
Lemma py_min_keys (h : gmap Z grid) :
  (0 < size h)%nat → is_Some (py_min (keys h)).
Proof.
  rewrite <- length_keys. destruct (keys h); simpl; [lia|]. by eexists.
Qed.

(** What [save_state_to_history] does to the dictionary, case by case. *)
Lemma save_state_to_history_cases (st : State) :
  let h := <[gen_counter st := T st]> (generation_history st) in
  let h' := generation_history (save_state_to_history st) in
  (T st = [] ∧ h' = generation_history st) ∨
  (T st ≠ [] ∧ (size h ≤ MAX_HISTORY_GENERATIONS)%nat ∧ h' = h) ∨
  (T st ≠ [] ∧ (MAX_HISTORY_GENERATIONS < size h)%nat ∧
   ∃ m, is_Some (h !! m) ∧ (∀ k, is_Some (h !! k) → m <= k) ∧
        h' = delete m h).
Proof.
  intros h h'. subst h'. unfold save_state_to_history.
  destruct (T st) as [|row rows] eqn:HT; simpl; [by left|].
  right. fold h. case_decide as Hsize.
  - right. split; [done|]. split; [done|].
    destruct (py_min_keys h) as [m Hm]; [unfold MAX_HISTORY_GENERATIONS in *; lia|].
    rewrite Hm. simpl. exists m.
    apply py_min_spec in Hm as [Hin Hle].
    split; [by apply elem_of_keys|]. split; [|done].
    intros k Hk. apply Hle. by apply elem_of_keys.
  - left. split; [done|]. split; [lia|done].
Qed.

Lemma save_state_to_history_bound (st : State) :
  (size (generation_history st) ≤ MAX_HISTORY_GENERATIONS)%nat →
  (size (generation_history (save_state_to_history st))
     ≤ MAX_HISTORY_GENERATIONS)%nat.
Proof.
  intros Hb.
  pose proof (map_size_insert (gen_counter st) (T st) (generation_history st))
    as Hins.
  assert (size (<[gen_counter st := T st]> (generation_history st))
          ≤ S (size (generation_history st)))%nat as Hle.
  { rewrite Hins. destruct (_ !! _); simpl; lia. }
  destruct (save_state_to_history_cases st)
    as [[_ ->]|[(_ & Hs & ->)|(_ & Hs & m & Hm & _ & ->)]]; [done..|].
  rewrite map_size_delete_Some by done. lia.
Qed.

Lemma record_window (st : State) (g : grid) (lo hi : Z) :
  g ≠ [] → lo <= hi → hi - lo <= Z.of_nat MAX_HISTORY_GENERATIONS →
  window (generation_history st) lo hi →
  window (generation_history (record st (hi, g)))
         (Z.max lo (hi + 1 - Z.of_nat MAX_HISTORY_GENERATIONS)) (hi + 1).
Proof.
  intros Hg Hlh Hcap [Hdom Hsize]. unfold record.
  set (st0 := set_gen_counter _ _).
  assert (generation_history st0 = generation_history st) as Hh0 by done.
  assert (gen_counter st0 = hi) as Hc0 by done.
  assert (T st0 = g) as HT0 by done.
  assert (generation_history st !! hi = None) as Hfresh.
  { apply eq_None_not_Some. rewrite Hdom. lia. }
  pose proof (save_state_to_history_cases st0) as Hcases.
  rewrite Hh0, Hc0, HT0 in Hcases. simpl in Hcases.
  assert (size (<[hi := g]> (generation_history st))
          = S (size (generation_history st))) as Hins
    by (by apply map_size_insert_None).
  assert (∀ x, is_Some (<[hi := g]> (generation_history st) !! x)
               ↔ lo <= x < hi + 1) as Hdom'.
  { intros x. rewrite lookup_insert_is_Some', Hdom. lia. }
  destruct Hcases as [[? _]|[(_ & Hs & ->)|(_ & Hs & m & Hm & Hmin & ->)]];
    [done| |].
  - split.
    + intros x. rewrite Hdom'. lia.
    + lia.
  - assert (m = lo) as ->.
    { apply Hdom' in Hm. specialize (Hmin lo). rewrite Hdom' in Hmin. lia. }
    split.
    + intros x. rewrite lookup_delete_is_Some, Hdom'. lia.
    + rewrite map_size_delete_Some by (apply Hdom'; lia). lia.
Qed.

Lemma record_all_window (grids : list grid) (st : State) (lo hi : Z) :
  Forall (λ g, g ≠ []) grids →
  lo <= hi → hi - lo <= Z.of_nat MAX_HISTORY_GENERATIONS →
  window (generation_history st) lo hi →
  let len := Z.of_nat (length grids) in
  window
    (generation_history (record_all (zip (seqZ hi len) grids) st))
    (Z.max lo (hi + len - Z.of_nat MAX_HISTORY_GENERATIONS)) (hi + len).
Proof.
  revert st lo hi. induction grids as [|g grids IH];
    intros st lo hi Hne Hlh Hcap Hw len; subst len; simpl length.
  - rewrite seqZ_nil by done. simpl. rewrite Z.add_0_r.
    rewrite Z.max_l by lia. done.
  - apply Forall_cons in Hne as [Hg Hne].
    rewrite seqZ_cons by lia. simpl.
    pose proof (record_window st g lo hi Hg Hlh Hcap Hw) as Hw1.
    replace (Z.pred (Z.of_nat (S (length grids))))
      with (Z.of_nat (length grids)) by lia.
    apply (IH _ _ _ Hne) in Hw1; [|lia..].
    replace (Z.succ hi) with (hi + 1) by lia.
    replace (hi + Z.of_nat (S (length grids)))
      with (hi + 1 + Z.of_nat (length grids)) by lia.
    replace (Z.max lo (hi + 1 + Z.of_nat (length grids)
                       - Z.of_nat MAX_HISTORY_GENERATIONS))
      with (Z.max (Z.max lo (hi + 1 - Z.of_nat MAX_HISTORY_GENERATIONS))
                  (hi + 1 + Z.of_nat (length grids)
                   - Z.of_nat MAX_HISTORY_GENERATIONS)) by lia.
    done.
Qed.

Lemma record_all_bound (entries : list (Z * grid)) (st : State) :
  (size (generation_history st) ≤ MAX_HISTORY_GENERATIONS)%nat →
  (size (generation_history (record_all entries st))
     ≤ MAX_HISTORY_GENERATIONS)%nat.
Proof.
  revert st. induction entries as [|entry entries IH]; intros st Hb; [done|].
  simpl. apply IH. unfold record. by apply save_state_to_history_bound.
Qed.

(** C3: a record never leaves more than [MAX_HISTORY_GENERATIONS] = 100
    entries in a history that respected the bound; when the new entry makes
    the size exceed the bound, the entry with the smallest key is the one
    removed; and after [100 + k] records ([k > 0]) of grids at the
    generations [0, 1, ..., 100 + k - 1], starting from an empty history,
    exactly 100 entries remain and the smallest key is [k].  In particular
    no sequence of records made from an empty history ever holds more than
    100 entries. *)
Theorem history_bounded :
  MAX_HISTORY_GENERATIONS = 100%nat ∧
  (∀ st,
     (size (generation_history st) ≤ MAX_HISTORY_GENERATIONS)%nat →
     (size (generation_history (save_state_to_history st))
        ≤ MAX_HISTORY_GENERATIONS)%nat) ∧
  (∀ entries st,
     generation_history st = ∅ →
     (size (generation_history (record_all entries st))
        ≤ MAX_HISTORY_GENERATIONS)%nat) ∧
  (∀ st,
     let h := <[gen_counter st := T st]> (generation_history st) in
     T st ≠ [] → (MAX_HISTORY_GENERATIONS < size h)%nat →
     ∃ m, is_Some (h !! m) ∧ (∀ k, is_Some (h !! k) → m <= k) ∧
          generation_history (save_state_to_history st) = delete m h) ∧
  (∀ (k : nat) (grids : list grid) (st : State),
     (0 < k)%nat → generation_history st = ∅ →
     length grids = (MAX_HISTORY_GENERATIONS + k)%nat →
     Forall (λ g, g ≠ []) grids →
     let gens := seqZ 0 (Z.of_nat (MAX_HISTORY_GENERATIONS + k)) in
     let h := generation_history (record_all (zip gens grids) st) in
     size h = MAX_HISTORY_GENERATIONS ∧
     py_min (keys h) = Some (Z.of_nat k)).
Proof.
  split; [done|]. split; [apply save_state_to_history_bound|]. split; [|split].
  - intros entries st Hempty. apply record_all_bound.
    rewrite Hempty, map_size_empty. lia.
  - intros st h HT Hsize.
    destruct (save_state_to_history_cases st)
      as [[? _]|[(_ & Hs & _)|(_ & _ & Hm)]]; [done| |done].
    fold h in Hs. lia.
  - intros k grids st Hk Hempty Hlen Hne gens h.
    assert (window (generation_history st) 0 0) as Hw0.
    { rewrite Hempty. split; [|by rewrite map_size_empty].
      intros x. rewrite lookup_empty. split; [by intros []|lia]. }
    pose proof (record_all_window grids st 0 0 Hne) as Hw.
    simpl in Hw. rewrite Hlen in Hw.
    destruct Hw as [Hdom Hsize]; [lia..|done|].
    fold gens in Hdom, Hsize. fold h in Hdom, Hsize.
    assert (size h = MAX_HISTORY_GENERATIONS) as Hsz.
    { unfold MAX_HISTORY_GENERATIONS in *. lia. }
    split; [done|].
    destruct (py_min_keys h) as [m Hm]; [unfold MAX_HISTORY_GENERATIONS in *; lia|].
    rewrite Hm. f_equal.
    apply py_min_spec in Hm as [Hin Hle].
    apply elem_of_keys, Hdom in Hin.
    specialize (Hle (Z.of_nat k)). rewrite elem_of_keys, Hdom in Hle.
    unfold MAX_HISTORY_GENERATIONS in *. lia.
Qed.

Lemma history_bounded_witness :
  let grids := replicate 102 (make_grid 1) in
  let h := generation_history
             (record_all (zip (seqZ 0 102) grids) (start_workers 1 initial)) in
  size h = 100%nat ∧ py_min (keys h) = Some 2.
Proof.
  apply (proj2 (proj2 (proj2 (proj2 history_bounded))) 2%nat
           (replicate 102 (make_grid 1)) (start_workers 1 initial)).
  - lia.
  - reflexivity.
  - reflexivity.
  - by apply Forall_replicate.
Defined.

(** ** Copying a stored grid into the live grid *)

Lemma in_bounds_spec (g : grid) (i j : nat) :
  in_bounds g i j = true ↔ is_Some (lookup2 g i j).
Proof.
  unfold in_bounds, lookup2. rewrite andb_true_iff, !bool_decide_eq_true.
  destruct (g !! i) as [row|] eqn:Hrow; simpl.
  - rewrite (list_lookup_total_correct _ _ _ Hrow).
    rewrite lookup_lt_is_Some. apply lookup_lt_Some in Hrow. tauto.
  - apply lookup_ge_None in Hrow. split; [lia|]. by intros [].
Qed.

Lemma lookup2_nil (i j : nat) : lookup2 [] i j = None.
Proof. unfold lookup2. by rewrite lookup_nil. Qed.

Lemma lookup2_store (g : grid) (i j : nat) (v : Z) (a b : nat) :
  is_Some (lookup2 g i j) →
  lookup2 (store g i j v) a b =
  if decide (a = i ∧ b = j) then Some v else lookup2 g a b.
Proof.
  unfold lookup2, store. intros [c Hc].
  destruct (g !! i) as [row|] eqn:Hrow; simpl in Hc; [|done].
  rewrite (list_lookup_total_correct _ _ _ Hrow).
  pose proof (lookup_lt_Some _ _ _ Hrow). pose proof (lookup_lt_Some _ _ _ Hc).
  destruct (decide (a = i)) as [->|Hai].
  - rewrite list_lookup_insert_eq by done. simpl. rewrite Hrow. simpl.
    destruct (decide (b = j)) as [->|Hbj].
    + rewrite list_lookup_insert_eq by done. by rewrite decide_True.
    + rewrite list_lookup_insert_ne by done. rewrite decide_False; [done|].
      by intros [_ ?].
  - rewrite list_lookup_insert_ne by done. rewrite decide_False; [done|].
    by intros [? _].
Qed.

Lemma length_store (g : grid) (i j : nat) (v : Z) :
  length (store g i j v) = length g.
Proof. unfold store. by rewrite length_insert. Qed.

Lemma length_clip_row (i : nat) (cells : list Z) (j : nat) (g : grid) :
  length (clip_row i cells j g) = length g.
Proof.
  revert j g. induction cells as [|v rest IH]; intros j g; simpl; [done|].
  rewrite IH. destruct (in_bounds g i j); [apply length_store|done].
Qed.

Lemma length_clip_rows (rows : grid) (i : nat) (g : grid) :
  length (clip_rows rows i g) = length g.
Proof.
  revert i g. induction rows as [|row rest IH]; intros i g; simpl; [done|].
  by rewrite IH, length_clip_row.
Qed.

Lemma clip_row_lookup (i : nat) (cells : list Z) (j : nat) (g : grid) (a b : nat) :
  lookup2 (clip_row i cells j g) a b =
  if decide (a = i ∧ j ≤ b)%nat then
    match cells !! (b - j)%nat, lookup2 g a b with
    | Some v, Some _ => Some v
    | _, _ => lookup2 g a b
    end
  else lookup2 g a b.
Proof.
  revert j g. induction cells as [|v rest IH]; intros j g; simpl.
  - case_decide; [|done]. by destruct (lookup2 g a b).
  - rewrite IH. clear IH.
    assert (lookup2 (if in_bounds g i j then store g i j v else g) a b =
            if decide (a = i ∧ b = j)
            then (if in_bounds g i j then Some v else lookup2 g a b)
            else lookup2 g a b) as ->.
    { destruct (in_bounds g i j) eqn:Hin.
      - apply in_bounds_spec in Hin. by apply lookup2_store.
      - by case_decide. }
    destruct (decide (a = i ∧ S j ≤ b)%nat) as [[-> Hlt]|Hn1].
    + rewrite decide_False by lia. rewrite decide_True by lia.
      replace (b - j)%nat with (S (b - S j)) by lia. done.
    + destruct (decide (a = i ∧ b = j)) as [[-> ->]|Hn2].
      * rewrite decide_True by lia. rewrite Nat.sub_diag. simpl.
        destruct (in_bounds g i j) eqn:Hin.
        -- apply in_bounds_spec in Hin as [c ->]. done.
        -- destruct (lookup2 g i j) as [c|] eqn:Hc; [|done].
           assert (in_bounds g i j = true) as Htrue; [|congruence].
           apply in_bounds_spec. rewrite Hc. by eexists.
      * rewrite decide_False by lia. done.
Qed.

Lemma clip_rows_lookup (rows : grid) (i : nat) (g : grid) (a b : nat) :
  lookup2 (clip_rows rows i g) a b =
  if decide (i ≤ a)%nat then
    match lookup2 rows (a - i) b, lookup2 g a b with
    | Some v, Some _ => Some v
    | _, _ => lookup2 g a b
    end
  else lookup2 g a b.
Proof.
  revert i g. induction rows as [|row rest IH]; intros i g; simpl.
  - by case_decide.
  - rewrite IH, clip_row_lookup. clear IH. rewrite Nat.sub_0_r.
    destruct (decide (S i ≤ a)%nat) as [Hlt|Hn1].
    + rewrite decide_False by lia. rewrite decide_True by lia.
      replace (a - i)%nat with (S (a - S i)) by lia. done.
    + destruct (decide (a = i)) as [->|Hn2].
      * rewrite !decide_True by lia. rewrite Nat.sub_diag.
        unfold lookup2 at 2. simpl. done.
      * rewrite !decide_False by lia. done.
Qed.

(** The guarded copy of [load_history_from_file]. *)
Lemma clip_rows_overlaid (saved live : grid) :
  overlaid saved live (clip_rows saved 0 live).
Proof.
  split; [apply length_clip_rows|].
  intros i j. rewrite clip_rows_lookup, decide_True by lia.
  by rewrite Nat.sub_0_r.
Qed.

Lemma clip_row_is_Some (i : nat) (cells : list Z) (j : nat) (g : grid) (a b : nat) :
  is_Some (lookup2 (clip_row i cells j g) a b) ↔ is_Some (lookup2 g a b).
Proof.
  rewrite clip_row_lookup. case_decide; [|done].
  destruct (cells !! _), (lookup2 g a b); split; intros [? ?]; by eexists.
Qed.

(** When no index leaves the live grid, the unguarded copy of
    [load_state_from_history] finishes and does what the guarded one does. *)
Lemma restore_row_fits (i : nat) (cells : list Z) (j : nat) (g : grid) :
  (∀ b, (j ≤ b)%nat → is_Some (cells !! (b - j)%nat) → is_Some (lookup2 g i b)) →
  restore_row i cells j g = Finished (clip_row i cells j g).
Proof.
  revert j g. induction cells as [|v rest IH]; intros j g Hfit; simpl; [done|].
  assert (in_bounds g i j = true) as Hin.
  { apply in_bounds_spec, Hfit; [lia|]. rewrite Nat.sub_diag. by eexists. }
  rewrite Hin. apply IH. intros b Hb Hsome.
  rewrite lookup2_store by (by apply in_bounds_spec).
  case_decide; [by eexists|]. apply Hfit; [lia|].
  replace (b - j)%nat with (S (b - S j)) by lia. done.
Qed.

Lemma restore_rows_fits (rows : grid) (i : nat) (g : grid) :
  (∀ a b, (i ≤ a)%nat → is_Some (lookup2 rows (a - i) b) →
          is_Some (lookup2 g a b)) →
  restore_rows rows i g = Finished (clip_rows rows i g).
Proof.
  revert i g. induction rows as [|row rest IH]; intros i g Hfit; simpl; [done|].
  rewrite restore_row_fits.
  - apply IH. intros a b Ha Hsome. apply clip_row_is_Some.
    apply Hfit; [lia|]. replace (a - i)%nat with (S (a - S i)) by lia. done.
  - intros b _ Hsome. apply Hfit; [lia|].
    rewrite Nat.sub_diag, Nat.sub_0_r in *. done.
Qed.

Lemma restore_fits (state live : grid) :
  fits state live → restore_rows state 0 live = Finished (clip_rows state 0 live).
Proof.
  intros Hfit. apply restore_rows_fits. intros a b _.
  rewrite Nat.sub_0_r. apply Hfit.
Qed.

Lemma same_shape_fits (state live : grid) : same_shape state live → fits state live.
Proof.
  intros Hsh i j [v Hv]. unfold lookup2 in *.
  destruct (state !! i) as [r1|] eqn:Hr1; simpl in Hv; [|done].
  destruct (Forall2_lookup_l _ _ _ _ _ Hsh Hr1) as (r2 & -> & Hlen). simpl.
  apply lookup_lt_is_Some. rewrite <- Hlen. by eapply lookup_lt_Some.
Qed.

(** On a live grid of the same shape the copy yields the stored grid. *)
Lemma overlaid_same_shape (state live result : grid) :
  same_shape state live → overlaid state live result → result = state.
Proof.
  intros Hsh [Hlen Hget].
  pose proof (Forall2_length _ _ _ Hsh) as Hlen2.
  apply list_eq. intros i.
  destruct (state !! i) as [r1|] eqn:Hr1.
  - destruct (Forall2_lookup_l _ _ _ _ _ Hsh Hr1) as (r2 & Hr2 & Hl12).
    destruct (lookup_lt_is_Some_2 result i) as [r Hr].
    { rewrite Hlen. by eapply lookup_lt_Some. }
    rewrite Hr. f_equal. apply list_eq. intros j.
    specialize (Hget i j). unfold lookup2 in Hget.
    rewrite Hr, Hr1, Hr2 in Hget. simpl in Hget. rewrite Hget.
    destruct (r1 !! j) as [v|] eqn:Hv.
    + destruct (lookup_lt_is_Some_2 r2 j) as [w ->]; [|done].
      rewrite <- Hl12. by eapply lookup_lt_Some.
    + apply lookup_ge_None. rewrite <- Hl12. by apply lookup_ge_None.
  - apply lookup_ge_None. rewrite Hlen, <- Hlen2. by apply lookup_ge_None.
Qed.

(** ** Navigation *)

Lemma elem_of_available_gens (st : State) (k : Z) :
  k ∈ available_gens st ↔ stored st k.
Proof.
  unfold available_gens, stored.
  rewrite (merge_sort_Permutation Z.le (keys (generation_history st))).
  apply elem_of_keys.
Qed.

Lemma available_gens_sorted (st : State) :
  StronglySorted Z.le (available_gens st).
Proof. apply (StronglySorted_merge_sort Z.le). Qed.

Lemma dict_empty_false (st : State) (k : Z) :
  stored st k → dict_empty (generation_history st) = false.
Proof.
  intros [g Hk]. unfold dict_empty. apply bool_decide_eq_false.
  intros Hempty. by rewrite Hempty, lookup_empty in Hk.
Qed.

Lemma dict_empty_true (st : State) (k : Z) :
  dict_empty (generation_history st) = true → ¬ stored st k.
Proof.
  unfold dict_empty, stored. intros ->%bool_decide_eq_true.
  rewrite lookup_empty. by intros [].
Qed.

(** The last element below [c] of a sorted list is the largest one. *)
Lemma last_filter_below (l : list Z) (c : Z) :
  StronglySorted Z.le l →
  match last (filter (λ g, g < c) l) with
  | Some k => k ∈ l ∧ k < c ∧ ∀ x, x ∈ l → x < c → x <= k
  | None => ∀ x, x ∈ l → ¬ x < c
  end.
Proof.
  induction 1 as [|x l Hs IH Hx]; simpl.
  - intros x Hx. by apply elem_of_nil in Hx.
  - rewrite filter_cons. case_decide as Hxc.
    + rewrite last_cons. destruct (last (filter _ l)) as [k|].
      * destruct IH as (Hk & Hkc & Hmax). split; [by right|]. split; [done|].
        intros y [->|Hy]%elem_of_cons Hyc; [|by apply Hmax].
        rewrite Forall_forall in Hx. by apply Hx.
      * split; [left|]. split; [done|].
        intros y [->|Hy]%elem_of_cons Hyc; [done|]. by destruct (IH y).
    + destruct (last (filter _ l)) as [k|].
      * destruct IH as (Hk & Hkc & Hmax). split; [by right|]. split; [done|].
        intros y [->|Hy]%elem_of_cons Hyc; [done|by apply Hmax].
      * intros y [->|Hy]%elem_of_cons; [done|by apply IH].
Qed.

(** The first element above [c] of a sorted list is the smallest one. *)
Lemma head_filter_above (l : list Z) (c : Z) :
  StronglySorted Z.le l →
  match head (filter (λ g, c < g) l) with
  | Some k => k ∈ l ∧ c < k ∧ ∀ x, x ∈ l → c < x → k <= x
  | None => ∀ x, x ∈ l → ¬ c < x
  end.
Proof.
  induction 1 as [|x l Hs IH Hx]; simpl.
  - intros x Hx. by apply elem_of_nil in Hx.
  - rewrite filter_cons. case_decide as Hxc; simpl.
    + split; [left|]. split; [done|].
      intros y [->|Hy]%elem_of_cons Hyc; [done|].
      rewrite Forall_forall in Hx. by apply Hx.
    + destruct (head (filter _ l)) as [k|].
      * destruct IH as (Hk & Hkc & Hmin). split; [by right|]. split; [done|].
        intros y [->|Hy]%elem_of_cons Hyc; [done|by apply Hmin].
      * intros y [->|Hy]%elem_of_cons; [done|by apply IH].
Qed.

Lemma target_gen_undo (st : State) :
  match target_gen "undo" st with
  | Some k => undo_target st k
  | None => ∀ k, stored st k → ¬ k < gen_counter st
  end.
Proof.
  unfold target_gen. destruct (dict_empty _) eqn:He.
  - intros k Hk. by apply (dict_empty_true st k) in He.
  - rewrite decide_True by done.
    pose proof (last_filter_below (available_gens st) (gen_counter st)
                  (available_gens_sorted st)) as Hl.
    destruct (last _) as [k|].
    + destruct Hl as (Hk & Hkc & Hmax). split; [by apply elem_of_available_gens|].
      split; [done|]. intros k' g Hk'. apply Hmax.
      apply elem_of_available_gens. by exists g.
    + intros k Hk. apply Hl. by apply elem_of_available_gens.
Qed.

Lemma target_gen_redo (st : State) :
  match target_gen "redo" st with
  | Some k => redo_target st k
  | None => ∀ k, stored st k → ¬ gen_counter st < k
  end.
Proof.
  unfold target_gen. destruct (dict_empty _) eqn:He.
  - intros k Hk. by apply (dict_empty_true st k) in He.
  - rewrite decide_False by done. rewrite decide_True by done.
    pose proof (head_filter_above (available_gens st) (gen_counter st)
                  (available_gens_sorted st)) as Hl.
    destruct (head _) as [k|].
    + destruct Hl as (Hk & Hkc & Hmin). split; [by apply elem_of_available_gens|].
      split; [done|]. intros k' g Hk'. apply Hmin.
      apply elem_of_available_gens. by exists g.
    + intros k Hk. apply Hl. by apply elem_of_available_gens.
Qed.

Lemma undo_target_unique (st : State) (k1 k2 : Z) :
  undo_target st k1 → undo_target st k2 → k1 = k2.
Proof.
  intros ([g1 H1] & Hc1 & Hm1) ([g2 H2] & Hc2 & Hm2).
  specialize (Hm1 k2 g2 H2). specialize (Hm2 k1 g1 H1). simpl in *. lia.
Qed.

Lemma redo_target_unique (st : State) (k1 k2 : Z) :
  redo_target st k1 → redo_target st k2 → k1 = k2.
Proof.
  intros ([g1 H1] & Hc1 & Hm1) ([g2 H2] & Hc2 & Hm2).
  specialize (Hm1 k2 g2 H2). specialize (Hm2 k1 g1 H1). simpl in *. lia.
Qed.

Lemma load_state_restores (direction : string) (st : State) (k : Z) (state : grid) :
  target_gen direction st = Some k →
  generation_history st !! k = Some state →
  fits state (T st) →
  ∃ st', load_state_from_history direction st = Returned true st' ∧
         restored st k state st'.
Proof.
  intros Ht Hk Hfit. unfold load_state_from_history.
  rewrite Ht, Hk, (restore_fits _ _ Hfit). eexists. split; [done|].
  split; [done|]. split; [apply clip_rows_overlaid|].
  split; [|done]. intros Hsh. simpl.
  apply (overlaid_same_shape state (T st)); [done|apply clip_rows_overlaid].
Qed.

Lemma can_undo_spec (st : State) :
  can_undo st = true ↔ ∃ k, stored st k ∧ k < gen_counter st.
Proof.
  unfold can_undo. destruct (dict_empty _) eqn:He.
  - split; [done|]. intros (k & Hk & _). by apply (dict_empty_true st k) in He.
  - destruct (py_min (available_gens st)) as [m|] eqn:Hm.
    + apply py_min_spec in Hm as [Hin Hle]. rewrite bool_decide_eq_true. split.
      * intros Hlt. exists m. split; [by apply elem_of_available_gens|done].
      * intros (k & Hk & Hlt). apply elem_of_available_gens in Hk.
        specialize (Hle k Hk). lia.
    + split; [done|]. intros (k & Hk & _).
      apply elem_of_available_gens in Hk.
      destruct (available_gens st); [by apply elem_of_nil in Hk|done].
Qed.

Lemma can_redo_spec (st : State) :
  can_redo st = true ↔ ∃ k, stored st k ∧ gen_counter st < k.
Proof.
  unfold can_redo. destruct (dict_empty _) eqn:He.
  - split; [done|]. intros (k & Hk & _). by apply (dict_empty_true st k) in He.
  - destruct (py_max (available_gens st)) as [m|] eqn:Hm.
    + apply py_max_spec in Hm as [Hin Hle]. rewrite bool_decide_eq_true. split.
      * intros Hlt. exists m. split; [by apply elem_of_available_gens|done].
      * intros (k & Hk & Hlt). apply elem_of_available_gens in Hk.
        specialize (Hle k Hk). lia.
    + split; [done|]. intros (k & Hk & _).
      apply elem_of_available_gens in Hk.
      destruct (available_gens st); [by apply elem_of_nil in Hk|done].
Qed.

Lemma nothing_below_target (st : State) :
  nothing_below st → target_gen "undo" st = None.
Proof.
  intros Hno. pose proof (target_gen_undo st) as Ht.
  destruct (target_gen "undo" st) as [k|]; [|done].
  destruct Ht as ([g Hk] & Hlt & _). by destruct (Hno k g Hk).
Qed.

Lemma nothing_above_target (st : State) :
  nothing_above st → target_gen "redo" st = None.
Proof.
  intros Hno. pose proof (target_gen_redo st) as Ht.
  destruct (target_gen "redo" st) as [k|]; [|done].
  destruct Ht as ([g Hk] & Hlt & _). by destruct (Hno k g Hk).
Qed.

Lemma undo_target_found (st : State) (k : Z) :
  undo_target st k → target_gen "undo" st = Some k.
Proof.
  intros Hk. pose proof (target_gen_undo st) as Ht.
  destruct (target_gen "undo" st) as [k'|].
  - f_equal. by apply (undo_target_unique st).
  - destruct Hk as (Hs & Hlt & _). by destruct (Ht k Hs).
Qed.

Lemma redo_target_found (st : State) (k : Z) :
  redo_target st k → target_gen "redo" st = Some k.
Proof.
  intros Hk. pose proof (target_gen_redo st) as Ht.
  destruct (target_gen "redo" st) as [k'|].
  - f_equal. by apply (redo_target_unique st).
  - destruct Hk as (Hs & Hlt & _). by destruct (Ht k Hs).
Qed.

(** Navigation when the snapshot lies within the live grid:
    [load_state_from_history("undo")] copies into the live grid the snapshot
    stored under the largest key strictly below the counter and sets the
    counter to that key; ["redo"] does the same with the smallest key
    strictly above the counter; each returns [False] with the state (grid,
    counter, history) untouched when there is no such key; [can_undo] and
    [can_redo], which only read the state, tell whether such a key exists.
    When snapshot and live grid have the same shape the live grid becomes
    the snapshot. *)
Lemma navigate_undo_redo (st : State) :
  (∀ k state,
     undo_target st k → generation_history st !! k = Some state →
     fits state (T st) →
     ∃ st', load_state_from_history "undo" st = Returned true st' ∧
            restored st k state st') ∧
  (nothing_below st → load_state_from_history "undo" st = Returned false st) ∧
  (∀ k state,
     redo_target st k → generation_history st !! k = Some state →
     fits state (T st) →
     ∃ st', load_state_from_history "redo" st = Returned true st' ∧
            restored st k state st') ∧
  (nothing_above st → load_state_from_history "redo" st = Returned false st) ∧
  (can_undo st = true ↔ ∃ k, stored st k ∧ k < gen_counter st) ∧
  (can_redo st = true ↔ ∃ k, stored st k ∧ gen_counter st < k).
Proof.
  split; [|split; [|split; [|split; [|split]]]].
  - intros k state Hk Hs Hfit.
    apply load_state_restores; [by apply undo_target_found|done..].
  - intros Hno. unfold load_state_from_history.
    by rewrite nothing_below_target.
  - intros k state Hk Hs Hfit.
    apply load_state_restores; [by apply redo_target_found|done..].
  - intros Hno. unfold load_state_from_history.
    by rewrite nothing_above_target.
  - apply can_undo_spec.
  - apply can_redo_spec.
Qed.

Example navigate_two_snapshots :
  (∃ st', load_state_from_history "undo" two_snapshots = Returned true st' ∧
          restored two_snapshots 1 (make_grid 3) st') ∧
  load_state_from_history "redo" two_snapshots = Returned false two_snapshots.
Proof.
  split.
  - apply (proj1 (navigate_undo_redo two_snapshots) 1 (make_grid 3)).
    + by_computation.
    + reflexivity.
    + by_computation.
  - apply (proj1 (proj2 (proj2 (proj2 (navigate_undo_redo two_snapshots))))).
    by_computation.
Qed.

(** C4 at its failing input: a process on a grid of logical size 5 has
    loaded the history written by a session of size 6.  Generation 0 is
    stored and lies below the counter, [can_undo] says so, yet the unguarded
    copy of [load_state_from_history] leaves the live grid at column 7 of
    row 0: the call ends in [IndexError] instead of a boolean, and the
    counter is still 1. *)
Theorem undo_oversized_snapshot_raises :
  gen_counter resumed_smaller = 1 ∧
  undo_target resumed_smaller 0 ∧
  generation_history resumed_smaller !! 0 = Some corner_grid ∧
  can_undo resumed_smaller = true ∧
  ∃ st', load_state_from_history "undo" resumed_smaller = Raised IndexError st' ∧
         gen_counter st' = 1.
Proof.
  split; [by vm_compute|]. split; [by_computation|].
  split; [by vm_compute|]. split; [by vm_compute|].
  eexists. split; [vm_compute; reflexivity|]. done.
Qed.

(** C10: with a direction that is neither ["undo"] nor ["redo"],
    [load_state_from_history] returns [False] and the state it leaves (live
    grid, counter, history, redraw flag and the rest) is the state it
    found. *)
Theorem navigate_unknown_direction (direction : string) (st : State) :
  direction ≠ "undo"%string → direction ≠ "redo"%string →
  load_state_from_history direction st = Returned false st.
Proof.
  intros Hu Hr. unfold load_state_from_history, target_gen.
  destruct (dict_empty _); [done|].
  by rewrite !decide_False by done.
Qed.

Lemma navigate_unknown_direction_witness :
  load_state_from_history "replay" two_snapshots = Returned false two_snapshots.
Proof.
  apply navigate_unknown_direction; discriminate.
Defined.

(** ** Persistence *)

Lemma int_str (z : Z) : int (str z) = Some z.
Proof.
  unfold int, str. rewrite NilZero.isi.
  - simpl. by rewrite DecimalZ.of_to.
  - destruct z; simpl; [done| |done].
    intros [= Hnil]. by apply DecimalPos.Unsigned.to_uint_nonnil in Hnil.
  - destruct z; simpl; [done..|].
    intros [= Hnil]. by apply DecimalPos.Unsigned.to_uint_nonnil in Hnil.
Qed.

Lemma int_keys_str (l : list (Z * grid)) (acc : gmap Z grid) :
  int_keys ((λ item : Z * grid, (str item.1, item.2)) <$> l) acc =
  Some (foldl (λ a item, <[item.1 := item.2]> a) acc l).
Proof.
  revert acc. induction l as [|[k g] l IH]; intros acc; simpl; [done|].
  rewrite int_str. simpl. apply IH.
Qed.

Lemma foldl_insert_lookup (l : list (Z * grid)) (acc : gmap Z grid) (x : Z) :
  NoDup l.*1 →
  foldl (λ a item, <[item.1 := item.2]> a) acc l !! x =
  match (list_to_map l : gmap Z grid) !! x with
  | Some g => Some g
  | None => acc !! x
  end.
Proof.
  revert acc. induction l as [|[k g] l IH]; intros acc Hnd; simpl; [done|].
  apply NoDup_cons in Hnd as [Hk Hnd]. rewrite IH by done.
  destruct (decide (k = x)) as [->|Hne].
  - rewrite (not_elem_of_list_to_map_1 l x Hk).
    by rewrite !lookup_insert_eq.
  - by rewrite !lookup_insert_ne.
Qed.

Lemma foldl_insert_map_to_list (h : gmap Z grid) :
  foldl (λ a item, <[item.1 := item.2]> a) ∅ (map_to_list h) = h.
Proof.
  apply map_eq. intros x.
  rewrite foldl_insert_lookup by apply NoDup_fst_map_to_list.
  rewrite list_to_map_to_list, lookup_empty. by destruct (h !! x).
Qed.

Lemma overlaid_refl_empty (saved live : grid) :
  Py.truthy saved && Py.truthy live = false → overlaid saved live live.
Proof.
  intros Hempty. split; [done|]. intros i j.
  destruct saved, live; try done; rewrite ?lookup2_nil; try done.
  by destruct (lookup2 _ i j).
Qed.

(** C5: what [save_history_to_file] writes, read back by
    [load_history_from_file] in any process, gives the same dictionary of
    snapshots and the same counter; the cells of the saved grid are copied
    at the indices that exist in both the saved grid and the live one, the
    other live cells are kept, and the load never fails on a size
    mismatch. *)
Theorem history_file_round_trip (saver fresh : State) (f : file) :
  let st' :=
    load_history_from_file (save_history_to_file Succeeds saver f) fresh in
  generation_history st' = generation_history saver ∧
  gen_counter st' = gen_counter saver ∧
  overlaid (T saver) (T fresh) (T st').
Proof.
  simpl. rewrite int_keys_str, foldl_insert_map_to_list. simpl.
  destruct (Py.truthy (T saver) && Py.truthy (T fresh)) eqn:Hne; simpl.
  - split; [done|]. split; [done|]. apply clip_rows_overlaid.
  - split; [done|]. split; [done|]. by apply overlaid_refl_empty.
Qed.

(** ** Exceptions in the barrier action *)

Lemma barrier_action_with_cases
    (swap_block snapshot : State → outcome unit) (st : State) :
  match swap_block st with
  | Raised e st1 => barrier_action_with swap_block snapshot st = Raised e st1
  | Returned _ st1 =>
      match snapshot st1 with
      | Raised e st2 =>
          barrier_action_with swap_block snapshot st = Raised e st2
      | Returned _ st2 =>
          barrier_action_with swap_block snapshot st
          = Returned tt (after_snapshot st2)
      end
  end.
Proof.
  unfold barrier_action_with.
  destruct (swap_block st) as [[] st1|e st1]; simpl; [|done].
  by destruct (snapshot st1) as [[] st2|e st2].
Qed.

(** C6, as the code has it: [barrier_action] handles no exception.  An
    error raised by the swap leaves the action at once; an error raised by
    the snapshot write leaves it after the swap, and then the redraw request,
    the step-mode shutoff and the pacing delay are not executed; the action
    runs to its end exactly when neither of the two raises. *)
Theorem barrier_action_propagates
    (swap_block snapshot : State → outcome unit) (st : State) :
  (∀ e st1, swap_block st = Raised e st1 →
            barrier_action_with swap_block snapshot st = Raised e st1) ∧
  (∀ u st1 e st2, swap_block st = Returned u st1 →
                  snapshot st1 = Raised e st2 →
                  barrier_action_with swap_block snapshot st = Raised e st2) ∧
  (∀ u st1 v st2, swap_block st = Returned u st1 →
                  snapshot st1 = Returned v st2 →
                  barrier_action_with swap_block snapshot st
                  = Returned tt (after_snapshot st2)).
Proof.
  pose proof (barrier_action_with_cases swap_block snapshot st) as Hc.
  split; [|split].
  - intros e st1 Hs. by rewrite Hs in Hc.
  - intros u st1 e st2 Hs Hp. by rewrite Hs, Hp in Hc.
  - intros u st1 v st2 Hs Hp. by rewrite Hs, Hp in Hc.
Qed.

Lemma barrier_action_propagates_witness :
  barrier_action_with (λ st, Returned tt (swap_grids st)) failing_snapshot
    two_snapshots
  = Raised MemoryError (swap_grids two_snapshots).
Proof.
  apply (proj1 (proj2 (barrier_action_propagates
                         (λ st, Returned tt (swap_grids st)) failing_snapshot
                         two_snapshots)) tt (swap_grids two_snapshots)).
  - reflexivity.
  - reflexivity.
Defined.

(** The claim of the specification fails: with a snapshot write that
    raises, the action does not reach its end. *)
Lemma snapshot_failure_ends_barrier_action :
  ¬ ∃ st', barrier_action_with (λ st, Returned tt (swap_grids st))
             failing_snapshot two_snapshots
           = Returned tt st'.
Proof. intros [st' Hst']. discriminate Hst'. Qed.

(** ** Generations *)

Lemma grid_of_shaped n (f : Z → Z → bool) : shaped n (grid_of n f).
Proof.
  unfold shaped, grid_of. rewrite length_fmap, length_seqZ.
  split; [lia|]. apply Forall_fmap, Forall_forall. intros i _. simpl.
  rewrite length_fmap, length_seqZ. lia.
Qed.

Lemma grid_of_cell n (f : Z → Z → bool) (i j : Z) :
  0 <= i <= Z.of_nat n + 1 → 0 <= j <= Z.of_nat n + 1 →
  cell (grid_of n f) i j = Some (if f i j then 1 else 0).
Proof.
  intros Hi Hj. rewrite cell_nonneg by lia. unfold grid_of.
  rewrite list_lookup_fmap, lookup_seqZ_lt by lia. simpl.
  rewrite list_lookup_fmap, lookup_seqZ_lt by lia. simpl.
  by rewrite !Z.add_0_l, !Z2Nat.id by lia.
Qed.

(** Two grids of the same logical size with the same cells are equal. *)
Lemma shaped_eq n (g1 g2 : grid) :
  shaped n g1 → shaped n g2 →
  (∀ i j, 0 <= i <= Z.of_nat n + 1 → 0 <= j <= Z.of_nat n + 1 →
          cell g1 i j = cell g2 i j) →
  g1 = g2.
Proof.
  intros H1 H2 Hcells. apply list_eq. intros a.
  destruct (decide (a < n + 2)%nat) as [Ha|Ha].
  - destruct (shaped_row n g1 a H1 Ha) as (r1 & Hr1 & Hl1).
    destruct (shaped_row n g2 a H2 Ha) as (r2 & Hr2 & Hl2).
    rewrite Hr1, Hr2. f_equal. apply list_eq. intros b.
    destruct (decide (b < n + 2)%nat) as [Hb|Hb].
    + specialize (Hcells (Z.of_nat a) (Z.of_nat b)).
      rewrite !cell_nonneg, !Nat2Z.id, Hr1, Hr2 in Hcells by lia.
      apply Hcells; lia.
    + rewrite !(proj2 (lookup_ge_None _ _)) by lia. done.
  - destruct H1 as [Hl1 _], H2 as [Hl2 _].
    rewrite !(proj2 (lookup_ge_None _ _)) by lia. done.
Qed.

(** One generation on grids of logical size [n]: the round succeeds, the
    barrier action returns, the grids have been exchanged, and the new
    current grid holds the values computed from the old one at the interior
    cells, and what the old next grid held elsewhere. *)
Lemma generation_spec n (sched : list (Z * Z)) (st : State) :
  shaped n (T st) → shaped n (Tnext st) → sched ≡ₚ interior_cells n →
  ∃ st', generation sched st = Some (Returned tt st') ∧
         Tnext st' = T st ∧ shaped n (T st') ∧
         gen_counter st' = gen_counter st + 1 ∧
         ∀ i j, 0 <= i → 0 <= j →
                cell (T st') i j =
                if decide (interior n i j) then next_value (T st) i j
                else cell (Tnext st) i j.
Proof.
  intros HT HN Hperm.
  destruct (compute_round_spec n sched (T st) (Tnext st) HT HN)
    as (nxt & Hrun & Hshape & Hget).
  { intros [a b] Hp. apply elem_of_interior_cells. by rewrite <- Hperm. }
  unfold generation. rewrite Hrun. simpl.
  destruct (barrier_action_exchanges (set_Tnext nxt st))
    as (st' & Hact & HT' & HN' & Hgen).
  exists st'. split; [by rewrite Hact|]. simpl in *.
  rewrite HT', HN'. split; [done|]. split; [done|]. split; [done|].
  intros i j Hi Hj. rewrite Hget by done.
  destruct (decide (interior n i j)) as [Hin|Hout].
  - rewrite decide_True; [done|]. rewrite Hperm.
    by apply elem_of_interior_cells.
  - rewrite decide_False; [done|]. rewrite Hperm.
    by rewrite elem_of_interior_cells.
Qed.

(** A generation seen on patterns: if the rule turns [f] into [f'] on the
    interior and [f'] is dead on a border that the next grid has dead, the
    new current grid is the grid of [f']. *)
Lemma generation_pattern n (sched : list (Z * Z)) (st : State)
    (f f' : Z → Z → bool) :
  T st = grid_of n f → shaped n (Tnext st) → dead_border n (Tnext st) →
  sched ≡ₚ interior_cells n →
  (∀ i j, interior n i j →
          next_value (grid_of n f) i j = Some (if f' i j then 1 else 0)) →
  (∀ i j, on_border n i j → f' i j = false) →
  ∃ st', generation sched st = Some (Returned tt st') ∧
         T st' = grid_of n f' ∧ Tnext st' = grid_of n f ∧
         gen_counter st' = gen_counter st + 1.
Proof.
  intros HT HN Hdead Hperm Hrule Hborder.
  destruct (generation_spec n sched st) as (st' & Hgen & HN' & Hs' & Hc & Hget);
    [rewrite HT; apply grid_of_shaped|done..|].
  exists st'. split; [done|]. split; [|split; [congruence|done]].
  apply (shaped_eq n); [done|apply grid_of_shaped|].
  intros i j Hi Hj. rewrite Hget, grid_of_cell by lia.
  destruct (decide (interior n i j)) as [Hin|Hout].
  - rewrite HT. by apply Hrule.
  - assert (on_border n i j) as Hb by (unfold interior, on_border in *; lia).
    by rewrite Hdead, Hborder.
Qed.

Lemma next_value_grid_of n (f : Z → Z → bool) (i j : Z) :
  interior n i j →
  next_value (grid_of n f) i j =
  let b2z (b : bool) := if b then 1 else 0 in
  let nb := b2z (f (i - 1) (j - 1)) + b2z (f (i - 1) j) + b2z (f (i - 1) (j + 1))
            + b2z (f i (j - 1)) + b2z (f i (j + 1))
            + b2z (f (i + 1) (j - 1)) + b2z (f (i + 1) j)
            + b2z (f (i + 1) (j + 1)) in
  if decide (b2z (f i j) = 1)
  then Some (if decide (nb = 2 ∨ nb = 3) then 1 else 0)
  else Some (if decide (nb = 3) then 1 else 0).
Proof.
  intros [Hi Hj]. unfold next_value, neighbors.
  rewrite !grid_of_cell by lia. done.
Qed.

Lemma blinker_v_rule n (r c i j : Z) :
  interior n i j →
  next_value (blinker_v n r c) i j
  = Some (if bool_decide (i = r ∧ c - 1 <= j <= c + 1) then 1 else 0).
Proof.
  intros Hij. unfold blinker_v. rewrite next_value_grid_of by done. simpl.
  split_offsets i r; split_offsets j c; settle_cells; done.
Qed.

Lemma blinker_h_rule n (r c i j : Z) :
  interior n i j →
  next_value (blinker_h n r c) i j
  = Some (if bool_decide (j = c ∧ r - 1 <= i <= r + 1) then 1 else 0).
Proof.
  intros Hij. unfold blinker_h. rewrite next_value_grid_of by done. simpl.
  split_offsets i r; split_offsets j c; settle_cells; done.
Qed.

(** C8: on a grid large enough for a standing blinker whose centre is away
    from the border, one generation yields the lying blinker with the same
    centre and a second one yields the standing blinker again, whatever the
    order in which the threads run in each round. *)
Theorem blinker_period_two n (r c : Z) (sched1 sched2 : list (Z * Z)) (st : State) :
  away_from_border n r c →
  T st = blinker_v n r c → shaped n (Tnext st) → dead_border n (Tnext st) →
  sched1 ≡ₚ interior_cells n → sched2 ≡ₚ interior_cells n →
  ∃ st1 st2,
    generation sched1 st = Some (Returned tt st1) ∧
    T st1 = blinker_h n r c ∧
    generation sched2 st1 = Some (Returned tt st2) ∧
    T st2 = blinker_v n r c.
Proof.
  intros [Hr Hc] HT HN Hdead Hp1 Hp2.
  destruct (generation_pattern n sched1 st
              (λ i j, bool_decide (j = c ∧ r - 1 <= i <= r + 1))
              (λ i j, bool_decide (i = r ∧ c - 1 <= j <= c + 1)))
    as (st1 & Hg1 & HT1 & HN1 & _); [done..| | |].
  { intros i j Hij. by apply blinker_v_rule. }
  { intros i j Hb. apply bool_decide_eq_false_2.
    unfold on_border in Hb. lia. }
  destruct (generation_pattern n sched2 st1
              (λ i j, bool_decide (i = r ∧ c - 1 <= j <= c + 1))
              (λ i j, bool_decide (j = c ∧ r - 1 <= i <= r + 1)))
    as (st2 & Hg2 & HT2 & _); [done| | |done| | |].
  { rewrite HN1. apply grid_of_shaped. }
  { rewrite HN1. intros i j Hb. rewrite grid_of_cell.
    - rewrite bool_decide_eq_false_2; [done|]. unfold on_border in Hb. lia.
    - unfold on_border in Hb. lia.
    - unfold on_border in Hb. lia. }
  { intros i j Hij. by apply blinker_h_rule. }
  { intros i j Hb. apply bool_decide_eq_false_2.
    unfold on_border in Hb. lia. }
  by exists st1, st2.
Qed.

Lemma blinker_period_two_witness :
  ∃ st1 st2,
    generation (interior_cells 5) blinker_session = Some (Returned tt st1) ∧
    T st1 = blinker_h 5 3 3 ∧
    generation (reverse (interior_cells 5)) st1 = Some (Returned tt st2) ∧
    T st2 = blinker_v 5 3 3.
Proof.
  apply (blinker_period_two 5 3 3).
  - unfold away_from_border. lia.
  - reflexivity.
  - by_computation.
  - by_computation.
  - reflexivity.
  - apply reverse_Permutation.
Defined.

(** ** The border *)

Lemma make_grid_shaped n : shaped n (make_grid n).
Proof.
  unfold shaped, make_grid. rewrite length_replicate. split; [done|].
  apply Forall_replicate. by rewrite length_replicate.
Qed.

Lemma make_grid_cell n (i j : Z) :
  0 <= i <= Z.of_nat n + 1 → 0 <= j <= Z.of_nat n + 1 →
  cell (make_grid n) i j = Some 0.
Proof.
  intros Hi Hj. rewrite cell_nonneg by lia. unfold make_grid.
  rewrite lookup_replicate_2 by lia. simpl.
  by rewrite lookup_replicate_2 by lia.
Qed.

Lemma fill_cells_spec n (value : Z * Z → Z) (cells : list (Z * Z)) (g : grid) :
  shaped n g → (∀ p, p ∈ cells → interior n p.1 p.2) →
  ∃ g', fill_cells value cells g = Some g' ∧ shaped n g' ∧
    ∀ a b, 0 <= a → 0 <= b →
      cell g' a b = if decide ((a, b) ∈ cells) then Some (value (a, b))
                    else cell g a b.
Proof.
  revert g. induction cells as [|[i j] rest IH]; intros g Hg Hall.
  - exists g. split; [done|]. split; [done|].
    intros a b _ _. rewrite decide_False; [done|]. apply not_elem_of_nil.
  - assert (interior n i j) as Hij by (apply (Hall (i, j)); left).
    destruct (setcell_shaped n g i j (value (i, j)) Hg) as (g1 & Hset & Hg1 & Hget);
      [unfold interior in Hij; lia..|].
    destruct (IH g1 Hg1) as (g2 & Hrun & Hg2 & Hfin).
    { intros p Hp. apply Hall. by right. }
    exists g2. split; [|split; [done|]].
    + simpl. by rewrite Hset.
    + intros a b Ha Hb. rewrite Hfin by done.
      destruct (decide ((a, b) ∈ rest)) as [Hin|Hin].
      * rewrite decide_True; [done|]. by right.
      * rewrite Hget by done.
        destruct (decide (a = i ∧ b = j)) as [[-> ->]|Hne].
        -- rewrite decide_True; [done|]. left.
        -- rewrite decide_False; [done|].
           rewrite elem_of_cons. intros [[= -> ->]|?]; [by apply Hne|done].
Qed.

Lemma fill_cells_border n (value : Z * Z → Z) (g : grid) :
  shaped n g → dead_border n g →
  ∃ g', fill_cells value (interior_cells n) g = Some g' ∧
        shaped n g' ∧ dead_border n g'.
Proof.
  intros Hg Hdead.
  destruct (fill_cells_spec n value (interior_cells n) g Hg)
    as (g' & Hrun & Hg' & Hget).
  { intros [a b] Hp. by apply elem_of_interior_cells. }
  exists g'. split; [done|]. split; [done|].
  intros i j Hb. rewrite Hget by (unfold on_border in Hb; lia).
  rewrite decide_False; [by apply Hdead|].
  rewrite elem_of_interior_cells. unfold interior, on_border in *. lia.
Qed.

(** Creation, clearing, random filling and a generation keep the border
    dead. *)
Lemma core_operations_keep_border (st : State) :
  dead_border (n st) (make_grid (n st)) ∧
  (∀ g, shaped (n st) g → dead_border (n st) g →
        ∃ g', clear_grid st g = Some g' ∧ dead_border (n st) g') ∧
  (∀ draw g, shaped (n st) g → dead_border (n st) g →
        ∃ g', randomize_grid draw st g = Some g' ∧ dead_border (n st) g') ∧
  (∀ sched, shaped (n st) (T st) → shaped (n st) (Tnext st) →
        dead_border (n st) (Tnext st) → sched ≡ₚ interior_cells (n st) →
        ∃ st', generation sched st = Some (Returned tt st') ∧
               dead_border (n st) (T st')).
Proof.
  split; [|split; [|split]].
  - intros i j Hb. apply make_grid_cell; unfold on_border in Hb; lia.
  - intros g Hg Hdead.
    destruct (fill_cells_border (n st) (λ _, 0) g Hg Hdead) as (g' & ? & _ & ?).
    by exists g'.
  - intros draw g Hg Hdead.
    destruct (fill_cells_border (n st) (λ ij, if draw ij then 1 else 0) g
                Hg Hdead) as (g' & ? & _ & ?).
    by exists g'.
  - intros sched HT HN Hdead Hperm.
    destruct (generation_spec (n st) sched st HT HN Hperm)
      as (st' & Hgen & _ & _ & _ & Hget).
    exists st'. split; [done|]. intros i j Hb.
    rewrite Hget by (unfold on_border in Hb; lia).
    rewrite decide_False; [by apply Hdead|].
    unfold interior, on_border in *. lia.
Qed.

(** C7 at its failing input: a process on a grid of logical size 5, all
    dead, loads the file left by a session of size 6 whose interior cell
    [(6, 6)] was alive.  The guarded copy only checks that the indices exist
    in the live grid, so the border cell [(6, 6)] of the live grid is
    overwritten and reads alive. *)
Theorem load_history_from_file_revives_border :
  let live := start_workers 5 initial in
  let st' := load_history_from_file corner_file live in
  shaped 5 (T live) ∧ dead_border 5 (T live) ∧
  shaped 5 (T st') ∧ on_border 5 6 6 ∧ cell (T st') 6 6 = Some 1 ∧
  ¬ dead_border 5 (T st').
Proof.
  intros live st'.
  split; [by_computation|]. split; [by_computation|].
  split; [by_computation|]. split; [by_computation|].
  assert (cell (T st') 6 6 = Some 1) as Hcell by (by vm_compute).
  split; [done|].
  intros Hdead. rewrite Hdead in Hcell; [done|]. by_computation.
Qed.

(** ** Recording, key by key *)

(** X1: a call of [save_state_to_history] changes the history at two keys
    at most: the current generation, which receives the live grid, and the
    smallest generation, which is dropped only when the history already
    holds [MAX_HISTORY_GENERATIONS] entries.  Every other snapshot is kept
    as it is. *)
Theorem save_state_to_history_touches_two_keys (st : State) (k : Z) :
  let h := generation_history st in
  let h' := generation_history (save_state_to_history st) in
  h' !! k = h !! k ∨
  (k = gen_counter st ∧ T st ≠ [] ∧ h' !! k = Some (T st)) ∨
  (h' !! k = None ∧ (MAX_HISTORY_GENERATIONS ≤ size h)%nat ∧
   ∀ k', is_Some (h !! k') → k <= k').
Proof.
  intros h h'. subst h'.
  pose proof (map_size_insert (gen_counter st) (T st) h) as Hins.
  assert (size (<[gen_counter st := T st]> h) ≤ S (size h))%nat as Hle.
  { rewrite Hins. destruct (h !! _); simpl; lia. }
  destruct (save_state_to_history_cases st)
    as [[_ ->]|[(HT & _ & ->)|(HT & Hs & m & Hm & Hmin & ->)]]; fold h.
  - by left.
  - destruct (decide (k = gen_counter st)) as [->|Hne].
    + right; left. by rewrite lookup_insert_eq.
    + left. by rewrite lookup_insert_ne.
  - fold h in Hs, Hm, Hmin. destruct (decide (m = k)) as [->|Hmk].
    + right; right. rewrite lookup_delete_eq. split; [done|]. split; [lia|].
      intros k' Hk'. apply Hmin. rewrite lookup_insert_is_Some'. by right.
    + rewrite lookup_delete_ne by done.
      destruct (decide (k = gen_counter st)) as [->|Hne].
      * right; left. by rewrite lookup_insert_eq.
      * left. by rewrite lookup_insert_ne.
Qed.

(** X2: the barrier action keeps the current generation recorded.  When
    some stored generation is not above the counter (the current one, in a
    running simulation) and the grid that becomes current is not empty, the
    action returns with the counter incremented and the new current grid
    stored under the new counter. *)
Theorem barrier_action_records (st : State) :
  Tnext st ≠ [] →
  (∃ k, stored st k ∧ k <= gen_counter st) →
  ∃ st', barrier_action st = Returned tt st' ∧
         gen_counter st' = gen_counter st + 1 ∧
         T st' = Tnext st ∧
         generation_history st' !! gen_counter st' = Some (T st').
Proof.
  intros HT (k & Hk & Hle).
  destruct (barrier_action_exchanges st) as (st' & Hact & HT' & _ & Hg).
  exists st'. split; [done|]. split; [done|]. split; [done|].
  rewrite barrier_action_returns in Hact. injection Hact as <-.
  destruct (after_snapshot_frame (save_state_to_history (swap_grids st)))
    as (-> & _ & _ & -> & -> & _).
  destruct (save_state_to_history_frame (swap_grids st))
    as (-> & _ & _ & -> & _).
  destruct (save_state_to_history_cases (swap_grids st))
    as [[? _]|[(_ & _ & ->)|(_ & Hs & m & Hm & Hmin & ->)]]; [done| |].
  - by rewrite lookup_insert_eq.
  - assert (m ≠ gen_counter (swap_grids st)) as Hne.
    { specialize (Hmin k). rewrite lookup_insert_is_Some' in Hmin.
      specialize (Hmin (or_intror Hk)).
      change (gen_counter (swap_grids st)) with (gen_counter st + 1). lia. }
    rewrite lookup_delete_ne by done. by rewrite lookup_insert_eq.
Qed.

Lemma barrier_action_records_witness :
  ∃ st', barrier_action two_snapshots = Returned tt st' ∧
         gen_counter st' = 5 ∧
         T st' = make_grid 3 ∧
         generation_history st' !! gen_counter st' = Some (T st').
Proof.
  apply (barrier_action_records two_snapshots).
  - discriminate.
  - exists 4. split; [by eexists|by vm_compute].
Defined.

(** X3: eviction goes by the smallest key, not by age.  In a history that
    holds [MAX_HISTORY_GENERATIONS] entries or more, a snapshot recorded
    under a generation below every stored one is the entry removed: the call
    leaves the history as it found it. *)
Theorem save_state_to_history_can_drop_the_new_snapshot (st : State) :
  T st ≠ [] →
  (MAX_HISTORY_GENERATIONS ≤ size (generation_history st))%nat →
  map_Forall (λ k _, gen_counter st < k) (generation_history st) →
  generation_history (save_state_to_history st) = generation_history st.
Proof.
  intros HT Hfull Hbelow.
  assert (generation_history st !! gen_counter st = None) as Hfresh.
  { destruct (generation_history st !! gen_counter st) as [g|] eqn:Hg; [|done].
    specialize (Hbelow _ _ Hg). simpl in Hbelow. lia. }
  pose proof (map_size_insert_None (gen_counter st) (T st) _ Hfresh) as Hins.
  destruct (save_state_to_history_cases st)
    as [[? _]|[(_ & Hs & _)|(_ & _ & m & Hm & Hmin & ->)]]; [done|lia|].
  assert (m = gen_counter st) as ->.
  { apply lookup_insert_is_Some' in Hm as [->|[g Hg]]; [done|].
    specialize (Hbelow _ _ Hg). simpl in Hbelow.
    specialize (Hmin (gen_counter st)).
    rewrite lookup_insert_is_Some' in Hmin.
    specialize (Hmin (or_introl eq_refl)). lia. }
  by apply delete_insert_id.
Qed.

Lemma save_state_to_history_can_drop_the_new_snapshot_witness :
  generation_history (save_state_to_history full_history)
  = generation_history full_history.
Proof.
  apply (save_state_to_history_can_drop_the_new_snapshot full_history).
  - by_computation.
  - by_computation.
  - by_computation.
Defined.

(** ** Navigation: what it keeps, when it fails *)

Lemma same_shape_lengths (g1 g2 : grid) :
  same_shape g1 g2 ↔ length <$> g1 = length <$> g2.
Proof.
  unfold same_shape. split.
  - induction 1 as [|r1 r2 g1 g2 Hr _ IH]; csimpl; [done|]. by rewrite Hr, IH.
  - revert g2. induction g1 as [|r1 g1 IH]; intros [|r2 g2] Heq;
      simplify_eq/=; constructor; [done|by apply IH].
Qed.

Lemma same_shape_refl (g : grid) : same_shape g g.
Proof. by apply same_shape_lengths. Qed.

Lemma same_shape_sym (g1 g2 : grid) : same_shape g1 g2 → same_shape g2 g1.
Proof. rewrite !same_shape_lengths. done. Qed.

Lemma same_shape_trans (g1 g2 g3 : grid) :
  same_shape g1 g2 → same_shape g2 g3 → same_shape g1 g3.
Proof. rewrite !same_shape_lengths. congruence. Qed.

Lemma same_shape_store (g : grid) (i j : nat) (v : Z) :
  same_shape g (store g i j v).
Proof.
  apply same_shape_lengths. unfold store.
  rewrite list_fmap_insert, length_insert.
  destruct (g !! i) as [row|] eqn:Hrow.
  - rewrite (list_lookup_total_correct _ _ _ Hrow).
    symmetry. apply list_insert_id. by rewrite list_lookup_fmap, Hrow.
  - symmetry. apply list_insert_ge. rewrite length_fmap.
    by apply lookup_ge_None.
Qed.

Lemma restore_row_shape (i : nat) (cells : list Z) (j : nat) (g : grid) :
  match restore_row i cells j g with
  | Finished g' | Failed g' => same_shape g g'
  end.
Proof.
  revert j g. induction cells as [|v rest IH]; intros j g; simpl.
  - apply same_shape_refl.
  - destruct (in_bounds g i j); [|apply same_shape_refl].
    specialize (IH (S j) (store g i j v)).
    destruct (restore_row _ _ _ _);
      (eapply same_shape_trans; [apply same_shape_store|done]).
Qed.

Lemma restore_rows_shape (rows : grid) (i : nat) (g : grid) :
  match restore_rows rows i g with
  | Finished g' | Failed g' => same_shape g g'
  end.
Proof.
  revert i g. induction rows as [|row rest IH]; intros i g; simpl.
  - apply same_shape_refl.
  - pose proof (restore_row_shape i row 0 g) as Hrow.
    destruct (restore_row i row 0 g) as [g1|g1]; [|done].
    specialize (IH (S i) g1).
    destruct (restore_rows _ _ _); by eapply same_shape_trans.
Qed.

Lemma load_state_from_history_keeps (direction : string) (st : State) :
  let st' := state_of (load_state_from_history direction st) in
  generation_history st' = generation_history st ∧
  Tnext st' = Tnext st ∧ n st' = n st ∧
  running st' = running st ∧ step_event st' = step_event st ∧
  stop_event st' = stop_event st ∧
  same_shape (T st) (T st').
Proof.
  unfold load_state_from_history.
  destruct (target_gen direction st) as [k|]; simpl;
    [|repeat split; apply same_shape_refl].
  destruct (generation_history st !! k) as [state|]; simpl;
    [|repeat split; apply same_shape_refl].
  pose proof (restore_rows_shape state 0 (T st)) as Hshape.
  destruct (restore_rows state 0 (T st)); simpl; by repeat split.
Qed.

(** X4: whatever the direction and whatever the outcome (a boolean or an
    [IndexError] in the middle of the copy), [load_state_from_history]
    leaves the history, the next grid, the size and the run flags as they
    were, and the live grid keeps its number of rows and the length of each
    row. *)
Theorem load_state_from_history_frame (direction : string) (st : State) :
  let st' := state_of (load_state_from_history direction st) in
  generation_history st' = generation_history st ∧
  Tnext st' = Tnext st ∧ n st' = n st ∧
  running st' = running st ∧ step_event st' = step_event st ∧
  stop_event st' = stop_event st ∧
  same_shape (T st) (T st').
Proof. apply load_state_from_history_keeps. Qed.

Lemma load_undo_false_iff (st : State) :
  load_state_from_history "undo" st = Returned false st ↔ nothing_below st.
Proof.
  split; [|intros Hno; unfold load_state_from_history;
           by rewrite nothing_below_target].
  unfold load_state_from_history.
  pose proof (target_gen_undo st) as Ht.
  destruct (target_gen "undo" st) as [k|].
  - destruct (generation_history st !! k); [|done].
    by destruct (restore_rows _ _ _).
  - intros _ k g Hk. apply Ht. by exists g.
Qed.

Lemma load_redo_false_iff (st : State) :
  load_state_from_history "redo" st = Returned false st ↔ nothing_above st.
Proof.
  split; [|intros Hno; unfold load_state_from_history;
           by rewrite nothing_above_target].
  unfold load_state_from_history.
  pose proof (target_gen_redo st) as Ht.
  destruct (target_gen "redo" st) as [k|].
  - destruct (generation_history st !! k); [|done].
    by destruct (restore_rows _ _ _).
  - intros _ k g Hk. apply Ht. by exists g.
Qed.

(** X5: [can_undo] and [can_redo] predict the navigation: each is [False]
    exactly when the corresponding call of [load_state_from_history] returns
    [False] (and then changes nothing). *)
Theorem can_undo_redo_predict (st : State) :
  (can_undo st = false ↔
   load_state_from_history "undo" st = Returned false st) ∧
  (can_redo st = false ↔
   load_state_from_history "redo" st = Returned false st).
Proof.
  split.
  - rewrite load_undo_false_iff, <- not_true_iff_false, can_undo_spec.
    split.
    + intros Hno k g Hk Hlt. apply Hno. exists k. split; [by exists g|done].
    + intros Hno (k & [g Hk] & Hlt). by apply (Hno k g Hk).
  - rewrite load_redo_false_iff, <- not_true_iff_false, can_redo_spec.
    split.
    + intros Hno k g Hk Hlt. apply Hno. exists k. split; [by exists g|done].
    + intros Hno (k & [g Hk] & Hlt). by apply (Hno k g Hk).
Qed.

Lemma store_is_Some (g : grid) (i j : nat) (v : Z) (a b : nat) :
  is_Some (lookup2 g i j) →
  is_Some (lookup2 (store g i j v) a b) ↔ is_Some (lookup2 g a b).
Proof.
  intros Hin. rewrite lookup2_store by done.
  case_decide as Heq; [|done]. destruct Heq as [-> ->].
  split; [done|by eexists].
Qed.

Lemma restore_row_finished (i : nat) (cells : list Z) (j : nat) (g g' : grid) :
  restore_row i cells j g = Finished g' →
  ∀ b, (j ≤ b)%nat → is_Some (cells !! (b - j)%nat) → is_Some (lookup2 g i b).
Proof.
  revert j g. induction cells as [|v rest IH]; intros j g Hrun b Hb Hsome.
  - rewrite lookup_nil in Hsome. by destruct Hsome.
  - simpl in Hrun. destruct (in_bounds g i j) eqn:Hin; [|done].
    apply in_bounds_spec in Hin.
    destruct (decide (b = j)) as [->|Hne]; [done|].
    apply (store_is_Some g i j v i b Hin).
    apply (IH _ _ Hrun); [lia|].
    replace (b - j)%nat with (S (b - S j)) in Hsome by lia. done.
Qed.

Lemma restore_rows_finished (rows : grid) (i : nat) (g g' : grid) :
  restore_rows rows i g = Finished g' →
  ∀ a b, (i ≤ a)%nat → is_Some (lookup2 rows (a - i) b) →
         is_Some (lookup2 g a b).
Proof.
  revert i g. induction rows as [|row rest IH]; intros i g Hrun a b Ha Hsome.
  - rewrite lookup2_nil in Hsome. by destruct Hsome.
  - simpl in Hrun.
    destruct (restore_row i row 0 g) as [g1|g1] eqn:Hrow; [|done].
    pose proof (restore_row_finished _ _ _ _ _ Hrow) as Hfit.
    destruct (decide (a = i)) as [->|Hne].
    + apply Hfit; [lia|]. rewrite Nat.sub_diag in Hsome.
      by rewrite Nat.sub_0_r.
    + rewrite restore_row_fits in Hrow.
      2:{ intros b' _ Hb'. apply Hfit; [lia|done]. }
      injection Hrow as <-.
      apply (clip_row_is_Some i row 0 g a b).
      apply (IH _ _ Hrun); [lia|].
      replace (a - i)%nat with (S (a - S i)) in Hsome by lia. done.
Qed.

(** The unguarded copy finishes exactly when the snapshot lies within the
    live grid. *)
Lemma restore_finishes_iff (state live : grid) :
  (∃ g, restore_rows state 0 live = Finished g) ↔ fits state live.
Proof.
  split.
  - intros [g Hg] i j Hsome.
    apply (restore_rows_finished _ _ _ _ Hg i j); [lia|].
    by rewrite Nat.sub_0_r.
  - intros Hfit. eexists. by apply restore_fits.
Qed.

Lemma load_state_raises_iff (direction : string) (st : State) (k : Z)
    (state : grid) :
  target_gen direction st = Some k →
  generation_history st !! k = Some state →
  (∃ st', load_state_from_history direction st = Raised IndexError st')
  ↔ ¬ fits state (T st).
Proof.
  intros Ht Hk. unfold load_state_from_history. rewrite Ht, Hk.
  rewrite <- restore_finishes_iff.
  destruct (restore_rows state 0 (T st)) as [g|g].
  - split; [by intros [? ?]|]. intros Hno. destruct Hno. by exists g.
  - split; [by intros _ [? ?]|]. intros _. by eexists.
Qed.

(** X6: the copy of [load_state_from_history] checks no bound.  When the
    snapshot to restore has a cell at indices that the live grid lacks, the
    call ends in [IndexError], and only then: a snapshot that lies within
    the live grid is always restored. *)
Theorem load_state_from_history_index_error (st : State) (k : Z)
    (state : grid) :
  generation_history st !! k = Some state →
  (undo_target st k →
   (∃ st', load_state_from_history "undo" st = Raised IndexError st')
   ↔ ¬ fits state (T st)) ∧
  (redo_target st k →
   (∃ st', load_state_from_history "redo" st = Raised IndexError st')
   ↔ ¬ fits state (T st)).
Proof.
  intros Hk. split; intros Ht.
  - apply (load_state_raises_iff "undo" st k state);
      [by apply undo_target_found|done].
  - apply (load_state_raises_iff "redo" st k state);
      [by apply redo_target_found|done].
Qed.

Lemma load_state_from_history_index_error_witness :
  ∃ st', load_state_from_history "undo" resumed_smaller
         = Raised IndexError st'.
Proof.
  apply (proj1 (load_state_from_history_index_error
                  resumed_smaller 0 corner_grid eq_refl)).
  - by_computation.
  - by_computation.
Defined.

(** X7: redo takes back an undo.  When the current generation is recorded
    and the two snapshots involved have the shape of the live grid, an undo
    followed by a redo both succeed, and the counter, the live grid (as
    recorded) and the history are those of the start. *)
Theorem undo_then_redo (st : State) (k : Z) (below here : grid) :
  generation_history st !! gen_counter st = Some here →
  undo_target st k → generation_history st !! k = Some below →
  same_shape here (T st) → same_shape below (T st) →
  ∃ st1 st2,
    load_state_from_history "undo" st = Returned true st1 ∧
    gen_counter st1 = k ∧ T st1 = below ∧
    load_state_from_history "redo" st1 = Returned true st2 ∧
    gen_counter st2 = gen_counter st ∧ T st2 = here ∧
    generation_history st2 = generation_history st.
Proof.
  intros Hhere Hk Hbelow Hsh_here Hsh_below.
  destruct (load_state_restores "undo" st k below) as (st1 & Hundo & Hr1);
    [by apply undo_target_found|done|by apply same_shape_fits|].
  destruct Hr1 as (Hc1 & _ & HT1 & Hh1 & _).
  specialize (HT1 Hsh_below).
  assert (redo_target st1 (gen_counter st)) as Hredo.
  { destruct Hk as (_ & Hlt & Hmax). unfold redo_target, stored.
    rewrite Hh1, Hc1. split; [by eexists|]. split; [done|].
    intros k' g Hk' Hlt'. simpl in *.
    destruct (decide (k' < gen_counter st)) as [Hbelow'|]; [|lia].
    specialize (Hmax k' g Hk' Hbelow'). simpl in Hmax. lia. }
  destruct (load_state_restores "redo" st1 (gen_counter st) here)
    as (st2 & Hredo2 & Hr2);
    [by apply redo_target_found|by rewrite Hh1| |].
  { apply same_shape_fits. rewrite HT1.
    eapply same_shape_trans; [done|by apply same_shape_sym]. }
  destruct Hr2 as (Hc2 & _ & HT2 & Hh2 & _).
  exists st1, st2. repeat split; try done.
  - apply HT2. rewrite HT1.
    eapply same_shape_trans; [done|by apply same_shape_sym].
  - congruence.
Qed.

Lemma undo_then_redo_witness :
  ∃ st1 st2,
    load_state_from_history "undo" two_snapshots = Returned true st1 ∧
    gen_counter st1 = 1 ∧ T st1 = make_grid 3 ∧
    load_state_from_history "redo" st1 = Returned true st2 ∧
    gen_counter st2 = 4 ∧ T st2 = glider ∧
    generation_history st2 = generation_history two_snapshots.
Proof.
  apply (undo_then_redo two_snapshots 1 (make_grid 3) glider).
  - reflexivity.
  - by_computation.
  - reflexivity.
  - by_computation.
  - by_computation.
Defined.

(** ** Loading a history file: what is refused, what is kept *)

Lemma uint_of_char_letter (a : Ascii.ascii) (d : option Decimal.uint) :
  letter a → uint_of_char a d = None.
Proof.
  intros Hl. destruct d as [d|]; [|done].
  destruct a as [[] [] [] [] [] [] [] []]; try done;
    exfalso; unfold letter in Hl; vm_compute in Hl; lia.
Qed.

Lemma uint_of_string_letter (s : string) :
  has_letter s → NilEmpty.uint_of_string s = None.
Proof.
  unfold has_letter. induction s as [|a s IH]; simpl.
  - intros H. by apply Exists_nil in H.
  - intros [Ha|Hs]%Exists_cons.
    + by apply uint_of_char_letter.
    + rewrite IH by done. by destruct a as [[] [] [] [] [] [] [] []].
Qed.

Lemma int_letter (s : string) : has_letter s → int s = None.
Proof.
  intros Hs. unfold int, NilZero.int_of_string.
  destruct s as [|a s]; [done|].
  destruct (Ascii.eqb a _) eqn:Hminus.
  - apply Ascii.eqb_eq in Hminus as ->.
    unfold has_letter in Hs. simpl in Hs.
    apply Exists_cons in Hs as [Ha|Hs].
    { unfold letter in Ha. vm_compute in Ha. lia. }
    unfold NilZero.uint_of_string. destruct s as [|b s]; [done|].
    by rewrite (uint_of_string_letter (String b s)).
  - unfold NilZero.uint_of_string. by rewrite uint_of_string_letter.
Qed.

Lemma int_keys_bad_key (items : list (string * grid)) (acc : gmap Z grid) :
  Exists (λ item, int item.1 = None) items → int_keys items acc = None.
Proof.
  revert acc. induction items as [|[gen state] items IH]; intros acc.
  - intros H. by apply Exists_nil in H.
  - intros [Hbad|Hrest]%Exists_cons; simpl in *.
    + by rewrite Hbad.
    + destruct (int gen) as [k|]; [|done]. simpl. by apply IH.
Qed.

(** X8: a history file in which some generation key contains a letter is
    refused as a whole: the [ValueError] of [int] is raised while the
    dictionary is being built, before any global is assigned, and is
    swallowed.  Neither the history, nor the counter, nor the grid
    changes, whatever the other fields of the file hold. *)
Theorem load_history_from_file_refuses_bad_key (data : document) (st : State) :
  Exists (λ item, has_letter item.1) (default [] (doc_history data)) →
  load_history_from_file (Json data) st = st.
Proof.
  intros Hbad. unfold load_history_from_file.
  rewrite int_keys_bad_key; [done|].
  eapply Exists_impl; [done|]. intros item Hitem. by apply int_letter.
Qed.

Lemma load_history_from_file_refuses_bad_key_witness :
  load_history_from_file garbled_file two_snapshots = two_snapshots.
Proof.
  apply load_history_from_file_refuses_bad_key. by_computation.
Defined.

Lemma clip_row_shape (i : nat) (cells : list Z) (j : nat) (g : grid) :
  same_shape g (clip_row i cells j g).
Proof.
  revert j g. induction cells as [|v rest IH]; intros j g; simpl.
  - apply same_shape_refl.
  - destruct (in_bounds g i j); [|apply IH].
    eapply same_shape_trans; [apply same_shape_store|apply IH].
Qed.

Lemma clip_rows_shape (rows : grid) (i : nat) (g : grid) :
  same_shape g (clip_rows rows i g).
Proof.
  revert i g. induction rows as [|row rest IH]; intros i g; simpl.
  - apply same_shape_refl.
  - eapply same_shape_trans; [apply clip_row_shape|apply IH].
Qed.

Lemma load_history_from_file_keeps (f : file) (st : State) :
  let st' := load_history_from_file f st in
  Tnext st' = Tnext st ∧ n st' = n st ∧
  running st' = running st ∧ step_event st' = step_event st ∧
  stop_event st' = stop_event st ∧ redraw_event st' = redraw_event st ∧
  same_shape (T st) (T st').
Proof.
  unfold load_history_from_file.
  destruct f as [| |data]; simpl; [repeat split; apply same_shape_refl..|].
  destruct (int_keys _ _) as [h|]; simpl;
    [|repeat split; apply same_shape_refl].
  destruct (doc_grid_state data) as [saved|]; simpl;
    [|repeat split; apply same_shape_refl].
  destruct (Py.truthy saved && Py.truthy (T st)); simpl;
    repeat split; first [apply clip_rows_shape | apply same_shape_refl].
Qed.

(** X9: whatever the file holds, [load_history_from_file] returns (every
    exception is swallowed), leaves the next grid, the size and the run
    flags untouched, and gives the live grid back with the same number of
    rows and the same row lengths: a saved grid of another size never
    resizes the live one. *)
Theorem load_history_from_file_frame (f : file) (st : State) :
  let st' := load_history_from_file f st in
  Tnext st' = Tnext st ∧ n st' = n st ∧
  running st' = running st ∧ step_event st' = step_event st ∧
  stop_event st' = stop_event st ∧ redraw_event st' = redraw_event st ∧
  same_shape (T st) (T st').
Proof. apply load_history_from_file_keeps. Qed.

(** ** The engine between two generations *)

Lemma next_value_binary (g : grid) (i j v : Z) :
  next_value g i j = Some v → v = 0 ∨ v = 1.
Proof.
  unfold next_value. destruct (neighbors g i j) as [nb|]; simpl; [|done].
  destruct (cell g i j) as [c|]; simpl; [|done].
  repeat case_decide; intros [= <-]; auto.
Qed.

Lemma binary_of_cells n (g : grid) :
  shaped n g →
  (∀ i j v, cell g i j = Some v → 0 <= i → 0 <= j → v = 0 ∨ v = 1) →
  binary g.
Proof.
  intros Hs Hcells. apply Forall_lookup. intros a row Hrow.
  apply Forall_lookup. intros b v Hv.
  apply (Hcells (Z.of_nat a) (Z.of_nat b)); [|lia..].
  rewrite cell_nonneg, !Nat2Z.id, Hrow by lia. done.
Qed.

Lemma generation_healthy (sched : list (Z * Z)) (st : State) :
  healthy st → sched ≡ₚ interior_cells (n st) →
  ∃ st', generation sched st = Some (Returned tt st') ∧ healthy st' ∧
         n st' = n st ∧ gen_counter st' = gen_counter st + 1.
Proof.
  intros (HT & HN & Hb & Hd & HdN & Hsize) Hperm.
  destruct (generation_spec (n st) sched st HT HN Hperm)
    as (st' & Hgen & HN' & HT' & Hc & Hget).
  assert (n st' = n st ∧
          (size (generation_history st') ≤ MAX_HISTORY_GENERATIONS)%nat)
    as [Hn Hsize'].
  { unfold generation in Hgen.
    destruct (compute_round _ _ _) as [nxt|]; simpl in Hgen; [|done].
    rewrite barrier_action_returns in Hgen. injection Hgen as <-.
    destruct (after_snapshot_frame
                (save_state_to_history (swap_grids (set_Tnext nxt st))))
      as (_ & _ & -> & _ & -> & _).
    destruct (save_state_to_history_frame (swap_grids (set_Tnext nxt st)))
      as (_ & _ & -> & _).
    split; [done|]. by apply save_state_to_history_bound. }
  exists st'. split; [done|]. split; [|done].
  unfold healthy. rewrite Hn, HN'.
  split; [done|]. split; [done|]. split; [|split; [|split; [done|done]]].
  - apply (binary_of_cells (n st)); [done|].
    intros i j v Hv Hi Hj. rewrite Hget in Hv by done.
    case_decide; [by eapply next_value_binary|].
    destruct (decide (on_border (n st) i j)) as [Hbd|Hout].
    + rewrite HdN in Hv by done. injection Hv as <-. by left.
    + destruct HN as [HlenN HrowsN].
      exfalso. rewrite cell_nonneg in Hv by done.
      destruct (Tnext st !! Z.to_nat i) as [row|] eqn:Hrow; simpl in Hv;
        [|done].
      pose proof (lookup_lt_Some _ _ _ Hrow) as Hi'.
      pose proof (Forall_lookup_1 _ _ _ _ HrowsN Hrow) as Hlen. simpl in Hlen.
      pose proof (lookup_lt_Some _ _ _ Hv) as Hj'.
      unfold interior, on_border in *. lia.
  - intros i j Hbd. rewrite Hget by (unfold on_border in Hbd; lia).
    rewrite decide_False; [by apply HdN|].
    unfold interior, on_border in *. lia.
Qed.

(** X10: a healthy engine stays healthy.  From a state whose two grids have
    the logical size [n] and a dead border, whose current grid holds zeros
    and ones and whose history is within its bound, any number of
    generations, in any thread orders, runs without an exception; the state
    reached is healthy again, the size is the same and the counter has grown
    by the number of generations. *)
Theorem generations_keep_healthy (scheds : list (list (Z * Z))) (st : State) :
  healthy st →
  Forall (λ sched, sched ≡ₚ interior_cells (n st)) scheds →
  ∃ st', generations scheds st = Some st' ∧ healthy st' ∧
         n st' = n st ∧
         gen_counter st' = gen_counter st + Z.of_nat (length scheds).
Proof.
  revert st. induction scheds as [|sched rest IH]; intros st Hh Hall.
  - exists st. split; [done|]. split; [done|]. split; [done|]. simpl. lia.
  - apply Forall_cons in Hall as [Hsched Hrest].
    destruct (generation_healthy sched st Hh Hsched)
      as (st1 & Hgen & Hh1 & Hn1 & Hc1).
    destruct (IH st1 Hh1) as (st' & Hrun & Hh' & Hn' & Hc').
    { by rewrite Hn1. }
    exists st'. simpl. rewrite Hgen. split; [done|]. split; [done|].
    split; [congruence|]. rewrite Hc', Hc1. lia.
Qed.

Lemma generations_keep_healthy_witness :
  ∃ st', generations [interior_cells 5; reverse (interior_cells 5);
                      interior_cells 5] blinker_session = Some st' ∧
         healthy st' ∧ n st' = 5%nat ∧ gen_counter st' = 3.
Proof.
  apply (generations_keep_healthy
           [interior_cells 5; reverse (interior_cells 5); interior_cells 5]
           blinker_session).
  - by_computation.
  - apply Forall_cons. split; [reflexivity|].
    apply Forall_cons. split; [apply reverse_Permutation|].
    apply Forall_cons. split; [reflexivity|]. apply Forall_nil_2.
Defined.

Lemma block_rule n (r c i j : Z) :
  interior n i j →
  next_value (block n r c) i j
  = Some (if bool_decide (r <= i <= r + 1 ∧ c <= j <= c + 1) then 1 else 0).
Proof.
  intros Hij. unfold block. rewrite next_value_grid_of by done. simpl.
  split_offsets i r; split_offsets j c; settle_cells; done.
Qed.

(** X11: the block is a still life of the engine.  With a 2x2 block of
    alive cells anywhere in the interior and every other cell dead, one
    generation, in any thread order, gives the current grid the very same
    cells. *)
Theorem block_still_life n (r c : Z) (sched : list (Z * Z)) (st : State) :
  1 <= r <= Z.of_nat n - 1 → 1 <= c <= Z.of_nat n - 1 →
  T st = block n r c → shaped n (Tnext st) → dead_border n (Tnext st) →
  sched ≡ₚ interior_cells n →
  ∃ st', generation sched st = Some (Returned tt st') ∧
         T st' = block n r c ∧ gen_counter st' = gen_counter st + 1.
Proof.
  intros Hr Hc HT HN Hdead Hperm.
  destruct (generation_pattern n sched st
              (λ i j, bool_decide (r <= i <= r + 1 ∧ c <= j <= c + 1))
              (λ i j, bool_decide (r <= i <= r + 1 ∧ c <= j <= c + 1)))
    as (st' & Hgen & HT' & _ & Hcnt); [done..| | |].
  { intros i j Hij. by apply block_rule. }
  { intros i j Hb. apply bool_decide_eq_false_2.
    unfold on_border in Hb. lia. }
  by exists st'.
Qed.

Lemma block_still_life_witness :
  ∃ st', generation (reverse (interior_cells 5)) block_session
         = Some (Returned tt st') ∧
         T st' = block 5 1 4 ∧ gen_counter st' = 1.
Proof.
  apply (block_still_life 5 1 4).
  - lia.
  - lia.
  - reflexivity.
  - by_computation.
  - by_computation.
  - apply reverse_Permutation.
Defined.

(** ** Pacing, start-up, clearing and random filling *)




Lemma scan_alive_all_dead (g : grid) (cells : list (Z * Z)) :
  (∀ p, p ∈ cells → cell g p.1 p.2 = Some 0) → scan_alive g cells = Some false.
Proof.
  induction cells as [|[i j] rest IH]; intros Hdead; [done|].
  pose proof (Hdead (i, j) (list_elem_of_here _ _)) as Hij. simpl in Hij.
  simpl. rewrite Hij. simpl.
  try rewrite decide_False by done. apply IH. intros p Hp. apply Hdead. by right.
Qed.

Lemma make_grid_binary k : binary (make_grid k).
Proof.
  apply (binary_of_cells k); [apply make_grid_shaped|].
  intros i j v Hv Hi Hj.
  destruct (decide (i <= Z.of_nat k + 1 ∧ j <= Z.of_nat k + 1)) as [[? ?]|Hout].
  - rewrite make_grid_cell in Hv by lia. injection Hv as <-. by left.
  - exfalso. rewrite cell_nonneg in Hv by done. unfold make_grid in Hv.
    destruct (replicate _ _ !! Z.to_nat i) as [row|] eqn:Hrow; simpl in Hv;
      [|done].
    apply lookup_replicate in Hrow as [-> Hi'].
    apply lookup_replicate in Hv as [_ Hj']. lia.
Qed.

(** X13: [start_workers(size)] hands the engine two all-dead grids of the
    requested logical size: both have [(size + 2)] rows of [(size + 2)]
    zeros, so [has_living_cells] answers [False]; the counter is 0 and the
    simulation is not running.  The history is not touched: snapshots taken
    before the call stay in it. *)
Theorem start_workers_gives_dead_grids (size : nat) (st : State) :
  let st' := start_workers size st in
  n st' = size ∧
  shaped size (T st') ∧ shaped size (Tnext st') ∧
  binary (T st') ∧
  dead_border size (T st') ∧ dead_border size (Tnext st') ∧
  has_living_cells st' = Some false ∧
  gen_counter st' = 0 ∧ running st' = false ∧ stop_event st' = false ∧
  generation_history st' = generation_history st.
Proof.
  simpl. split; [done|].
  split; [apply make_grid_shaped|]. split; [apply make_grid_shaped|].
  split; [apply make_grid_binary|].
  assert (dead_border size (make_grid size)) as Hdead.
  { intros i j Hb. apply make_grid_cell; unfold on_border in Hb; lia. }
  split; [done|]. split; [done|]. split; [|done].
  unfold has_living_cells. simpl. apply scan_alive_all_dead.
  intros [i j] [Hi Hj]%elem_of_interior_cells. simpl.
  apply make_grid_cell; lia.
Qed.

Lemma clear_grid_empties_aux (st : State) :
  shaped (n st) (T st) →
  ∃ g', clear_grid st (T st) = Some g' ∧ shaped (n st) g' ∧
        ∀ i j, interior (n st) i j → cell g' i j = Some 0.
Proof.
  intros Hs.
  destruct (fill_cells_spec (n st) (λ _, 0) (interior_cells (n st)) (T st) Hs)
    as (g' & Hrun & Hs' & Hget).
  { intros [a b] Hp. by apply elem_of_interior_cells. }
  exists g'. split; [done|]. split; [done|].
  intros i j Hij. rewrite Hget by (unfold interior in Hij; lia).
  rewrite decide_True; [done|]. by apply elem_of_interior_cells.
Qed.

(** X14: on a live grid of the logical size [n], [clear_grid] returns
    without an exception, every interior cell is 0 afterwards, the border is
    as it was, and [has_living_cells] then answers [False]. *)
Theorem clear_grid_empties (st : State) :
  shaped (n st) (T st) →
  ∃ g', clear_grid st (T st) = Some g' ∧ shaped (n st) g' ∧
        (∀ i j, interior (n st) i j → cell g' i j = Some 0) ∧
        (∀ i j, on_border (n st) i j → cell g' i j = cell (T st) i j) ∧
        has_living_cells (set_T g' st) = Some false.
Proof.
  intros Hs.
  destruct (fill_cells_spec (n st) (λ _, 0) (interior_cells (n st)) (T st) Hs)
    as (g' & Hrun & Hs' & Hget).
  { intros [a b] Hp. by apply elem_of_interior_cells. }
  assert (∀ i j, interior (n st) i j → cell g' i j = Some 0) as Hint.
  { intros i j Hij. rewrite Hget by (unfold interior in Hij; lia).
    rewrite decide_True; [done|]. by apply elem_of_interior_cells. }
  exists g'. split; [done|]. split; [done|]. split; [done|]. split.
  - intros i j Hb. rewrite Hget by (unfold on_border in Hb; lia).
    rewrite decide_False; [done|].
    rewrite elem_of_interior_cells. unfold interior, on_border in *. lia.
  - unfold has_living_cells. simpl. apply scan_alive_all_dead.
    intros [i j] Hp%elem_of_interior_cells. by apply Hint.
Qed.

Lemma clear_grid_empties_witness :
  ∃ g', clear_grid blinker_session (T blinker_session) = Some g' ∧
        shaped 5 g' ∧
        (∀ i j, interior 5 i j → cell g' i j = Some 0) ∧
        (∀ i j, on_border 5 i j → cell g' i j = cell (T blinker_session) i j) ∧
        has_living_cells (set_T g' blinker_session) = Some false.
Proof.
  apply (clear_grid_empties blinker_session). by_computation.
Defined.

(** X15: on a live grid of the logical size [n], [randomize_grid] returns
    without an exception; every interior cell then holds 1 or 0 according to
    the draw made for it, the border is as it was, and [has_living_cells]
    answers [True] exactly when some draw came out alive. *)
Theorem randomize_grid_follows_draws (draw : Z * Z → bool) (st : State) :
  shaped (n st) (T st) →
  ∃ g', randomize_grid draw st (T st) = Some g' ∧ shaped (n st) g' ∧
        (∀ i j, interior (n st) i j →
                cell g' i j = Some (if draw (i, j) then 1 else 0)) ∧
        (∀ i j, on_border (n st) i j → cell g' i j = cell (T st) i j) ∧
        (has_living_cells (set_T g' st) = Some true ↔
         ∃ i j, interior (n st) i j ∧ draw (i, j) = true).
Proof.
  intros Hs.
  destruct (fill_cells_spec (n st) (λ ij, if draw ij then 1 else 0)
              (interior_cells (n st)) (T st) Hs)
    as (g' & Hrun & Hs' & Hget).
  { intros [a b] Hp. by apply elem_of_interior_cells. }
  assert (∀ i j, interior (n st) i j →
                 cell g' i j = Some (if draw (i, j) then 1 else 0)) as Hint.
  { intros i j Hij. rewrite Hget by (unfold interior in Hij; lia).
    rewrite decide_True; [done|]. by apply elem_of_interior_cells. }
  exists g'. split; [done|]. split; [done|]. split; [done|]. split.
  - intros i j Hb. rewrite Hget by (unfold on_border in Hb; lia).
    rewrite decide_False; [done|].
    rewrite elem_of_interior_cells. unfold interior, on_border in *. lia.
  - unfold has_living_cells. simpl.
    destruct (scan_alive_spec g' (interior_cells (n st))) as (b & Hscan & Hb).
    { intros [i j] Hp%elem_of_interior_cells. simpl. rewrite Hint by done.
      by eexists. }
    rewrite Hscan. split.
    + intros [= ->].
      destruct (decide (Exists (λ p, draw p = true) (interior_cells (n st))))
        as [Hsome|Hnone]; rewrite Exists_exists in *.
      * destruct Hsome as ([i j] & Hp & Hd).
        exists i, j. split; [by apply elem_of_interior_cells|done].
      * assert (true = false) as Habs; [|done]. apply Hb.
        intros [i j] Hp. simpl.
        rewrite Hint by (by apply elem_of_interior_cells).
        destruct (draw (i, j)) eqn:Hd; [|done].
        exfalso. apply Hnone. by exists (i, j).
    + intros (i & j & Hij & Hd). f_equal.
      destruct b; [done|]. exfalso.
      assert (cell g' i j ≠ Some 1) as Hne.
      { apply (proj1 Hb eq_refl (i, j)). by apply elem_of_interior_cells. }
      apply Hne. by rewrite Hint, Hd.
Qed.

Lemma randomize_grid_follows_draws_witness :
  let draw := λ ij : Z * Z, bool_decide (ij.1 = ij.2) in
  ∃ g', randomize_grid draw blinker_session (T blinker_session) = Some g' ∧
        shaped 5 g' ∧
        (∀ i j, interior 5 i j →
                cell g' i j = Some (if draw (i, j) then 1 else 0)) ∧
        (∀ i j, on_border 5 i j → cell g' i j = cell (T blinker_session) i j) ∧
        (has_living_cells (set_T g' blinker_session) = Some true ↔
         ∃ i j, interior 5 i j ∧ draw (i, j) = true).
Proof.
  apply (randomize_grid_follows_draws _ blinker_session). by_computation.
Defined.

(** ** The handlers of the game window *)

Lemma shaped_nonempty k (g : grid) : shaped k g → g ≠ [].
Proof. intros [Hlen _] ->. simpl in Hlen. lia. Qed.

Lemma save_on_empty_history (st : State) :
  generation_history st = ∅ → T st ≠ [] →
  generation_history (save_state_to_history st)
  = {[gen_counter st := T st]}.
Proof.
  intros Hempty HT.
  destruct (save_state_to_history_cases st)
    as [[? _]|[(_ & _ & ->)|(_ & Hs & _)]]; [done| |].
  - by rewrite Hempty, insert_empty.
  - rewrite Hempty, insert_empty, map_size_singleton in Hs.
    unfold MAX_HISTORY_GENERATIONS in Hs. lia.
Qed.

Lemma singleton_no_navigation (st : State) (g : grid) :
  generation_history st = {[gen_counter st := g]} →
  can_undo st = false ∧ can_redo st = false.
Proof.
  intros Hh. split; apply not_true_iff_false.
  - rewrite can_undo_spec. intros (k & [g' Hk] & Hlt).
    rewrite Hh in Hk. apply lookup_singleton_Some in Hk as [Heq _]. lia.
  - rewrite can_redo_spec. intros (k & [g' Hk] & Hlt).
    rewrite Hh in Hk. apply lookup_singleton_Some in Hk as [Heq _]. lia.
Qed.

Lemma restart_with_spec k (g : grid) (st : State) :
  shaped k g →
  let st' := ModernApp.restart_with g st in
  T st' = g ∧ gen_counter st' = 0 ∧ running st' = running st ∧
  n st' = n st ∧ redraw_event st' = true ∧
  generation_history st' = {[0 := g]} ∧
  can_undo st' = false ∧ can_redo st' = false.
Proof.
  intros Hg. unfold ModernApp.restart_with.
  set (st0 := clear_history (set_gen_counter 0 (set_T g st))).
  destruct (save_state_to_history_frame st0)
    as (HT & _ & Hn & Hc & _ & Hrun & _).
  pose proof (save_on_empty_history st0 eq_refl (shaped_nonempty k g Hg)) as Hh.
  simpl. rewrite HT, Hn, Hc, Hrun, Hh.
  repeat split; try done.
  - apply (singleton_no_navigation _ g). simpl. by rewrite Hc, Hh.
  - apply (singleton_no_navigation _ g). simpl. by rewrite Hc, Hh.
Qed.

(** X16: the Clear button.  Unless the user declines the confirmation asked
    at a generation above 0, the handler stops the simulation, kills every
    interior cell, and restarts the history: the counter is 0, the history
    holds the cleared grid under generation 0 and nothing else, so that
    neither undo nor redo is possible.  A declined confirmation changes
    nothing but the run flag. *)
Theorem clear_button (answer : bool) (st : State) :
  shaped (n st) (T st) →
  (0 < gen_counter st ∧ answer = false →
   ∃ st', ModernApp.clear answer st = Some st' ∧ running st' = false ∧
          T st' = T st ∧ gen_counter st' = gen_counter st ∧
          generation_history st' = generation_history st) ∧
  (gen_counter st <= 0 ∨ answer = true →
   ∃ st', ModernApp.clear answer st = Some st' ∧ running st' = false ∧
          (∀ i j, interior (n st) i j → cell (T st') i j = Some 0) ∧
          gen_counter st' = 0 ∧
          generation_history st' = {[0 := T st']} ∧
          can_undo st' = false ∧ can_redo st' = false).
Proof.
  intros Hs. unfold ModernApp.clear.
  set (st1 := ModernApp.pause st).
  assert (running st1 = false ∧ T st1 = T st ∧ n st1 = n st ∧
          gen_counter st1 = gen_counter st ∧
          generation_history st1 = generation_history st)
    as (Hrun & HT & Hn & Hc & Hh).
  { subst st1. unfold ModernApp.pause. by destruct (running st) eqn:Hr. }
  split.
  - intros [Hpos ->]. rewrite Hc, bool_decide_eq_true_2 by done. simpl.
    by exists st1.
  - intros Hgo.
    assert (bool_decide (0 < gen_counter st1) && negb answer = false) as ->.
    { rewrite Hc. destruct Hgo as [Hle| ->].
      - by rewrite bool_decide_eq_false_2 by lia.
      - by rewrite andb_false_r. }
    destruct (clear_grid_empties_aux st1) as (g & Hclear & Hg & Hdead).
    { by rewrite Hn, HT. }
    rewrite Hclear. simpl.
    destruct (restart_with_spec (n st1) g st1 Hg)
      as (HT' & Hc' & Hrun' & _ & _ & Hh' & Hu & Hr).
    eexists. split; [done|]. rewrite HT', Hc', Hrun', Hh'.
    repeat split; try done. intros i j Hij. apply Hdead. by rewrite Hn.
Qed.

Lemma clear_button_witness :
  (0 < gen_counter running_session ∧ true = false →
   ∃ st', ModernApp.clear true running_session = Some st' ∧
          running st' = false ∧
          T st' = T running_session ∧
          gen_counter st' = gen_counter running_session ∧
          generation_history st' = generation_history running_session) ∧
  (gen_counter running_session <= 0 ∨ true = true →
   ∃ st', ModernApp.clear true running_session = Some st' ∧
          running st' = false ∧
          (∀ i j, interior (n running_session) i j →
                  cell (T st') i j = Some 0) ∧
          gen_counter st' = 0 ∧
          generation_history st' = {[0 := T st']} ∧
          can_undo st' = false ∧ can_redo st' = false).
Proof. apply (clear_button true running_session). by_computation. Defined.

Lemma has_living_cells_decides (st : State) :
  shaped (n st) (T st) →
  ∃ b, has_living_cells st = Some b ∧
       (b = true ↔ ∃ i j, interior (n st) i j ∧ cell (T st) i j = Some 1).
Proof.
  intros Hs. unfold has_living_cells.
  destruct (scan_alive_spec (T st) (interior_cells (n st)))
    as (b & Hscan & Hiff).
  { intros [i j] Hp%elem_of_interior_cells. destruct Hp. simpl.
    apply (shaped_cell (n st)); [done|lia..]. }
  exists b. split; [done|]. split.
  - intros ->.
    destruct (decide (Exists (λ p, cell (T st) p.1 p.2 = Some 1)
                        (interior_cells (n st)))) as [Hsome|Hnone].
    + apply Exists_exists in Hsome as ([i j] & Hp & Hc).
      exists i, j. split; [by apply elem_of_interior_cells|done].
    + assert (true = false) as Habs; [|done]. apply Hiff.
      intros p Hp Hc. apply Hnone, Exists_exists. by exists p.
  - intros (i & j & Hij & Hc). destruct b; [done|]. exfalso.
    apply (proj1 Hiff eq_refl (i, j)); [by apply elem_of_interior_cells|done].
Qed.

(** X17: the Start/Pause button.  On a well-shaped grid the handler returns
    without an exception and leaves the grids and the counter as they were;
    the simulation runs afterwards exactly when it was paused and some
    interior cell is alive: the button pauses a running simulation and never
    starts one on an empty grid.  The history is touched only when the
    simulation is started. *)
Theorem start_button (st : State) :
  shaped (n st) (T st) →
  ∃ st', ModernApp.toggle_start st = Some st' ∧
         T st' = T st ∧ Tnext st' = Tnext st ∧
         gen_counter st' = gen_counter st ∧
         (running st' = true ↔
          running st = false ∧
          ∃ i j, interior (n st) i j ∧ cell (T st) i j = Some 1) ∧
         (running st' = false →
          generation_history st' = generation_history st).
Proof.
  intros Hs. unfold ModernApp.toggle_start.
  destruct (running st) eqn:Hrun.
  - eexists. split; [done|]. simpl. repeat split; try done. by intros [? _].
  - destruct (has_living_cells_decides st Hs) as (b & -> & Hb). simpl.
    destruct b.
    + destruct (save_state_to_history_frame st) as (HT & HN & _ & Hc & _).
      eexists. split; [done|]. simpl. rewrite HT, HN, Hc.
      repeat split; try done. by apply Hb.
    + exists st. rewrite Hrun. repeat split; try done.
      intros [_ Halive]. by apply Hb in Halive.
Qed.

Lemma start_button_witness :
  ∃ st', ModernApp.toggle_start blinker_session = Some st' ∧
         T st' = T blinker_session ∧ Tnext st' = Tnext blinker_session ∧
         gen_counter st' = gen_counter blinker_session ∧
         (running st' = true ↔
          running blinker_session = false ∧
          ∃ i j, interior (n blinker_session) i j ∧
                 cell (T blinker_session) i j = Some 1) ∧
         (running st' = false →
          generation_history st' = generation_history blinker_session).
Proof. apply (start_button blinker_session). by_computation. Defined.

Lemma generation_flags (sched : list (Z * Z)) (st st' : State) :
  generation sched st = Some (Returned tt st') →
  running st' = (if step_event st then false else running st) ∧
  step_event st' = false ∧ redraw_event st' = true.
Proof.
  unfold generation.
  destruct (compute_round _ _ _) as [nxt|]; simpl; [|done].
  rewrite barrier_action_returns. intros [= <-].
  destruct (after_snapshot_frame
              (save_state_to_history (swap_grids (set_Tnext nxt st))))
    as (_ & _ & _ & _ & _ & -> & -> & ->).
  destruct (save_state_to_history_frame (swap_grids (set_Tnext nxt st)))
    as (_ & _ & _ & _ & _ & -> & -> & _).
  done.
Qed.

(** X18: the +1 button.  Pressed on a paused, healthy session with a living
    cell, it arms the single-step flag and releases the workers; the
    generation that follows, in whatever order the cell threads run, is
    computed, advances the counter by one and leaves the simulation paused
    again with the flag cleared and a redraw requested: one press, one
    generation. *)
Theorem step_button (sched : list (Z * Z)) (st : State) :
  healthy st → running st = false → step_event st = false →
  (∃ i j, interior (n st) i j ∧ cell (T st) i j = Some 1) →
  sched ≡ₚ interior_cells (n st) →
  ∃ st1 st2,
    ModernApp.one_step st = Some st1 ∧
    running st1 = true ∧ step_event st1 = true ∧ T st1 = T st ∧
    generation sched st1 = Some (Returned tt st2) ∧
    gen_counter st2 = gen_counter st + 1 ∧
    running st2 = false ∧ step_event st2 = false ∧ redraw_event st2 = true ∧
    healthy st2.
Proof.
  intros Hh Hrun Hstep Halive Hperm. unfold ModernApp.one_step.
  rewrite Hrun, Hstep. simpl.
  assert (shaped (n st) (T st)) as Hs by apply Hh.
  destruct (has_living_cells_decides st Hs) as (b & -> & Hb). simpl.
  apply Hb in Halive as ->.
  set (st1 := running_set (step_set (save_state_to_history st))).
  destruct (save_state_to_history_frame st)
    as (HT & HN & Hn & Hc & _).
  assert (healthy st1) as Hh1.
  { destruct Hh as (H1 & H2 & H3 & H4 & H5 & H6). unfold healthy.
    subst st1. simpl. rewrite HT, HN, Hn.
    repeat split; try done; try apply H1; try apply H2.
    by apply save_state_to_history_bound. }
  destruct (generation_healthy sched st1 Hh1) as (st2 & Hgen & Hh2 & _ & Hc2).
  { subst st1. simpl. by rewrite Hn. }
  destruct (generation_flags sched st1 st2 Hgen) as (Hr2 & Hs2 & Hd2).
  exists st1, st2. split; [done|]. split; [done|]. split; [done|].
  split; [done|]. split; [done|].
  split; [rewrite Hc2; subst st1; simpl; by rewrite Hc|].
  split; [by rewrite Hr2|]. done.
Qed.

Lemma step_button_witness :
  ∃ st1 st2,
    ModernApp.one_step blinker_session = Some st1 ∧
    running st1 = true ∧ step_event st1 = true ∧
    T st1 = T blinker_session ∧
    generation (reverse (interior_cells 5)) st1 = Some (Returned tt st2) ∧
    gen_counter st2 = gen_counter blinker_session + 1 ∧
    running st2 = false ∧ step_event st2 = false ∧ redraw_event st2 = true ∧
    healthy st2.
Proof.
  apply (step_button (reverse (interior_cells 5)) blinker_session).
  - by_computation.
  - reflexivity.
  - reflexivity.
  - exists 3, 3. by_computation.
  - apply reverse_Permutation.
Defined.

Lemma randomize_grid_fills (draw : Z * Z → bool) (st : State) :
  shaped (n st) (T st) →
  ∃ g', randomize_grid draw st (T st) = Some g' ∧ shaped (n st) g' ∧
        ∀ i j, interior (n st) i j →
               cell g' i j = Some (if draw (i, j) then 1 else 0).
Proof.
  intros Hs.
  destruct (fill_cells_spec (n st) (λ ij, if draw ij then 1 else 0)
              (interior_cells (n st)) (T st) Hs)
    as (g' & Hrun & Hs' & Hget).
  { intros [a b] Hp. by apply elem_of_interior_cells. }
  exists g'. split; [done|]. split; [done|].
  intros i j Hij. rewrite Hget by (unfold interior in Hij; lia).
  rewrite decide_True; [done|]. by apply elem_of_interior_cells.
Qed.

(** X19: the Random button.  Unless the user declines the confirmation
    asked at a generation above 0, the handler stops the simulation, gives
    every interior cell the value drawn for it, and restarts the history
    from the new grid: counter 0, one snapshot under generation 0, neither
    undo nor redo possible.  A declined confirmation changes nothing but the
    run flag. *)
Theorem random_button (draw : Z * Z → bool) (answer : bool) (st : State) :
  shaped (n st) (T st) →
  (0 < gen_counter st ∧ answer = false →
   ∃ st', ModernApp.randomize draw answer st = Some st' ∧
          running st' = false ∧
          T st' = T st ∧ gen_counter st' = gen_counter st ∧
          generation_history st' = generation_history st) ∧
  (gen_counter st <= 0 ∨ answer = true →
   ∃ st', ModernApp.randomize draw answer st = Some st' ∧
          running st' = false ∧
          (∀ i j, interior (n st) i j →
                  cell (T st') i j = Some (if draw (i, j) then 1 else 0)) ∧
          gen_counter st' = 0 ∧
          generation_history st' = {[0 := T st']} ∧
          can_undo st' = false ∧ can_redo st' = false).
Proof.
  intros Hs. unfold ModernApp.randomize.
  set (st1 := ModernApp.pause st).
  assert (running st1 = false ∧ T st1 = T st ∧ n st1 = n st ∧
          gen_counter st1 = gen_counter st ∧
          generation_history st1 = generation_history st)
    as (Hrun & HT & Hn & Hc & Hh).
  { subst st1. unfold ModernApp.pause. by destruct (running st) eqn:Hr. }
  split.
  - intros [Hpos ->]. rewrite Hc, bool_decide_eq_true_2 by done. simpl.
    by exists st1.
  - intros Hgo.
    assert (bool_decide (0 < gen_counter st1) && negb answer = false) as ->.
    { rewrite Hc. destruct Hgo as [Hle| ->].
      - by rewrite bool_decide_eq_false_2 by lia.
      - by rewrite andb_false_r. }
    destruct (randomize_grid_fills draw st1) as (g & Hfill & Hg & Hcells).
    { by rewrite Hn, HT. }
    rewrite Hfill. simpl.
    destruct (restart_with_spec (n st1) g st1 Hg)
      as (HT' & Hc' & Hrun' & _ & _ & Hh' & Hu & Hr).
    eexists. split; [done|]. rewrite HT', Hc', Hrun', Hh'.
    repeat split; try done. intros i j Hij. apply Hcells. by rewrite Hn.
Qed.

Lemma random_button_witness :
  let draw := λ ij : Z * Z, bool_decide (ij.1 = ij.2) in
  (0 < gen_counter running_session ∧ true = false →
   ∃ st', ModernApp.randomize draw true running_session = Some st' ∧
          running st' = false ∧
          T st' = T running_session ∧
          gen_counter st' = gen_counter running_session ∧
          generation_history st' = generation_history running_session) ∧
  (gen_counter running_session <= 0 ∨ true = true →
   ∃ st', ModernApp.randomize draw true running_session = Some st' ∧
          running st' = false ∧
          (∀ i j, interior (n running_session) i j →
                  cell (T st') i j = Some (if draw (i, j) then 1 else 0)) ∧
          gen_counter st' = 0 ∧
          generation_history st' = {[0 := T st']} ∧
          can_undo st' = false ∧ can_redo st' = false).
Proof. apply (random_button _ true running_session). by_computation. Defined.

Lemma pause_spec (st : State) :
  let st' := ModernApp.pause st in
  running st' = false ∧ T st' = T st ∧ Tnext st' = Tnext st ∧ n st' = n st ∧
  gen_counter st' = gen_counter st ∧
  generation_history st' = generation_history st.
Proof. unfold ModernApp.pause. by destruct (running st) eqn:Hr. Qed.

(** X20: the Undo and Redo buttons.  Whatever the outcome of the navigation
    (a move, no move, or an exception in the middle of the copy), the
    simulation is paused afterwards and the history is as it was; and when
    [can_undo] (resp. [can_redo]) answers [False], the button changes
    nothing but the run flag. *)
Theorem navigation_buttons_pause (st : State) :
  (running (state_of (ModernApp.undo st)) = false ∧
   generation_history (state_of (ModernApp.undo st)) = generation_history st ∧
   (can_undo st = false →
    ModernApp.undo st = Returned false (ModernApp.pause st))) ∧
  (running (state_of (ModernApp.redo st)) = false ∧
   generation_history (state_of (ModernApp.redo st)) = generation_history st ∧
   (can_redo st = false →
    ModernApp.redo st = Returned false (ModernApp.pause st))).
Proof.
  destruct (pause_spec st) as (Hrun & _ & _ & _ & Hc & Hh).
  unfold ModernApp.undo, ModernApp.redo. split.
  - destruct (load_state_from_history_keeps "undo" (ModernApp.pause st))
      as (-> & _ & _ & -> & _).
    split; [done|]. split; [done|]. intros Hno.
    apply load_undo_false_iff. intros k g Hk Hlt.
    apply not_true_iff_false in Hno. apply Hno, can_undo_spec.
    exists k. split; [exists g; by rewrite <- Hh|by rewrite <- Hc].
  - destruct (load_state_from_history_keeps "redo" (ModernApp.pause st))
      as (-> & _ & _ & -> & _).
    split; [done|]. split; [done|]. intros Hno.
    apply load_redo_false_iff. intros k g Hk Hlt.
    apply not_true_iff_false in Hno. apply Hno, can_redo_spec.
    exists k. split; [exists g; by rewrite <- Hh|by rewrite <- Hc].
Qed.



(** ** The theme manager *)

Import theme_manager.

Lemma dark_is_default : DEFAULT_THEMES !! "dark"%string = Some dark.
Proof. by vm_compute. Qed.

Lemma imported_defaults_present : defaults_present imported.
Proof. by intros name. Qed.

Lemma load_custom_themes_lookup (f : json_file (gmap string theme))
    (g : Globals) (k : string) :
  THEMES (load_custom_themes f g) !! k =
  match f with
  | Holds custom =>
      match custom !! k with Some t => Some t | None => DEFAULT_THEMES !! k end
  | _ => DEFAULT_THEMES !! k
  end.
Proof.
  unfold load_custom_themes. destruct f as [| |custom]; simpl; [done..|].
  rewrite lookup_union. by destruct (custom !! k), (DEFAULT_THEMES !! k).
Qed.

Lemma load_custom_themes_defaults (f : json_file (gmap string theme))
    (g : Globals) :
  defaults_present (load_custom_themes f g).
Proof.
  intros name Hd. rewrite load_custom_themes_lookup.
  destruct f as [| |custom]; [done..|]. by destruct (custom !! name).
Qed.

(** X22: the themes file round trip.  What [load_custom_themes] reads back
    from a file written by [save_custom_themes] is the collection that was
    saved, except under the four default names, where the built-in colours
    come back whatever the collection held: the collection is restored as
    it was exactly when its default themes were the built-in ones. *)
Theorem custom_themes_round_trip (g g0 : Globals)
    (f : json_file (gmap string theme)) :
  let g' := load_custom_themes (save_custom_themes Succeeds g f) g0 in
  (∀ k, THEMES g' !! k =
        match DEFAULT_THEMES !! k with
        | Some t => Some t
        | None => THEMES g !! k
        end) ∧
  (THEMES g' = THEMES g ↔
   ∀ k t, DEFAULT_THEMES !! k = Some t → THEMES g !! k = Some t) ∧
  current_theme g' = current_theme g0 ∧
  current_theme_name g' = current_theme_name g0.
Proof.
  assert (∀ k, THEMES (load_custom_themes (save_custom_themes Succeeds g f) g0)
               !! k =
               match DEFAULT_THEMES !! k with
               | Some t => Some t
               | None => THEMES g !! k
               end) as Hlookup.
  { intros k. rewrite load_custom_themes_lookup. simpl.
    destruct (DEFAULT_THEMES !! k) as [t|] eqn:Hd.
    - rewrite map_lookup_filter_None_2; [done|].
      right. intros t' _. simpl. by rewrite Hd.
    - destruct (THEMES g !! k) as [t|] eqn:Hk.
      + by rewrite (map_lookup_filter_Some_2 _ _ k t).
      + rewrite map_lookup_filter_None_2; [done|]. by left. }
  simpl. split; [done|]. split; [|done]. split.
  - intros Heq k t Hd. rewrite <- Heq, Hlookup. by rewrite Hd.
  - intros Hsame. apply map_eq. intros k. rewrite Hlookup.
    destruct (DEFAULT_THEMES !! k) as [t|] eqn:Hd; [|done].
    symmetry. by apply Hsame.
Qed.

Lemma delete_custom_theme_cases (w1 w2 : io) (name : string) (wd : World) :
  defaults_present (globals wd) →
  let r := delete_custom_theme w1 w2 name wd in
  let g := globals wd in
  let g' := globals r.2 in
  let deleted := set_THEMES (delete name (THEMES g)) g in
  ((is_Some (DEFAULT_THEMES !! name) ∨ THEMES g !! name = None) ∧
   r = (Says false, wd)) ∨
  (DEFAULT_THEMES !! name = None ∧ is_Some (THEMES g !! name) ∧
   r.1 = Says true ∧ engine r.2 = engine wd ∧
   custom_themes_file r.2
   = save_custom_themes w1 deleted (custom_themes_file wd) ∧
   ((current_theme_name g ≠ name ∧ g' = deleted ∧
     config_file r.2 = config_file wd) ∨
    (current_theme_name g = name ∧
     ∃ d, THEMES g !! "dark"%string = Some d ∧
          g' = set_current "dark" d deleted ∧
          config_file r.2
          = save_config w2 g' (engine wd) (config_file wd)))).
Proof.
  intros Hdef. unfold delete_custom_theme. simpl.
  case_bool_decide as Hd; [left; split; [by left|done]|].
  case_bool_decide as Hk; [|left; split; [|done]].
  2:{ right. by apply eq_None_not_Some. }
  right. apply eq_None_not_Some in Hd.
  split; [done|]. split; [done|].
  case_bool_decide as Hcur; simpl.
  - destruct (Hdef "dark"%string) as [d Hdark]; [by rewrite dark_is_default|].
    assert (name ≠ "dark"%string) as Hne.
    { intros ->. by rewrite dark_is_default in Hd. }
    rewrite lookup_delete_ne, Hdark by done. simpl.
    split; [done|]. split; [done|]. split; [done|].
    right. split; [done|]. by exists d.
  - split; [done|]. split; [done|]. split; [done|]. by left.
Qed.

(** X23: deleting a theme.  With every default theme present, the function
    raises nothing; it refuses (answer [False], nothing changed) exactly
    when the name is a default one or names no theme; otherwise the theme
    is gone from the collection and, the write succeeding, from the themes
    file, every other theme is as it was, and the default themes are still
    all present. *)
Theorem delete_custom_theme_spares_defaults (w1 w2 : io) (name : string)
    (wd : World) :
  defaults_present (globals wd) →
  ∃ b wd',
    delete_custom_theme w1 w2 name wd = (Says b, wd') ∧
    (b = false ↔
     is_Some (DEFAULT_THEMES !! name) ∨ THEMES (globals wd) !! name = None) ∧
    (b = false → wd' = wd) ∧
    (b = true →
     THEMES (globals wd') = delete name (THEMES (globals wd)) ∧
     (w1 = Succeeds →
      ∃ custom, custom_themes_file wd' = Holds custom ∧
                custom !! name = None)) ∧
    defaults_present (globals wd').
Proof.
  intros Hdef.
  destruct (delete_custom_theme_cases w1 w2 name wd Hdef)
    as [[Hwhy Hr]|(Hd & Hk & Hb & _ & Hfile & Hrest)].
  - exists false, wd. by rewrite Hr.
  - destruct (delete_custom_theme w1 w2 name wd) as [a wd'] eqn:Hr.
    simpl in *. subst a. exists true, wd'. split; [done|].
    assert (THEMES (globals wd') = delete name (THEMES (globals wd)))
      as Hthemes.
    { destruct Hrest as [(_ & -> & _)|(_ & d & _ & -> & _)]; done. }
    split.
    { split; [done|]. intros [Hd'|Hk']; [by rewrite Hd in Hd'; destruct Hd'|].
      rewrite Hk' in Hk. by destruct Hk. }
    split; [done|]. split.
    + intros _. split; [done|]. intros ->. rewrite Hfile. simpl.
      eexists. split; [done|]. apply map_lookup_filter_None_2. left.
      apply lookup_delete_eq.
    + intros k Hkd. rewrite Hthemes, lookup_delete_ne; [by apply Hdef|].
      intros ->. rewrite Hd in Hkd. by destruct Hkd.
Qed.

Lemma delete_custom_theme_spares_defaults_witness :
  ∃ b wd',
    delete_custom_theme Succeeds Succeeds "mine" custom_world = (Says b, wd') ∧
    (b = false ↔
     is_Some (DEFAULT_THEMES !! "mine"%string) ∨
     THEMES (globals custom_world) !! "mine"%string = None) ∧
    (b = false → wd' = custom_world) ∧
    (b = true →
     THEMES (globals wd') = delete "mine"%string (THEMES (globals custom_world)) ∧
     (Succeeds = Succeeds →
      ∃ custom, custom_themes_file wd' = Holds custom ∧
                custom !! "mine"%string = None)) ∧
    defaults_present (globals wd').
Proof.
  apply (delete_custom_theme_spares_defaults Succeeds Succeeds "mine"
           custom_world).
  intros name Hd. simpl.
  destruct (decide (name = "mine"%string)) as [->|Hne].
  - by rewrite lookup_insert_eq.
  - by rewrite lookup_insert_ne.
Defined.

(** X24: deleting the active theme.  When the deleted theme is the one in
    use, the module falls back on ["dark"]: the active name becomes
    ["dark"], the active colours are those that the collection holds under
    ["dark"], and a configuration write that succeeds records ["dark"]
    with the speed and run flag of the engine.  The active name thus
    designates the active colours afterwards. *)
Theorem delete_active_theme_falls_back (w1 w2 : io) (wd : World) :
  let name := current_theme_name (globals wd) in
  defaults_present (globals wd) →
  DEFAULT_THEMES !! name = None →
  is_Some (THEMES (globals wd) !! name) →
  ∃ d wd',
    delete_custom_theme w1 w2 name wd = (Says true, wd') ∧
    THEMES (globals wd) !! "dark"%string = Some d ∧
    current_theme_name (globals wd') = "dark"%string ∧
    current_theme (globals wd') = d ∧
    consistent (globals wd') ∧
    (w2 = Succeeds →
     config_file wd' =
     Holds {| cfg_theme := Some "dark"%string;
              cfg_speed := Some (speed (engine wd));
              cfg_was_running := Some (running (engine wd)) |}).
Proof.
  intros name Hdef Hd Hk.
  destruct (delete_custom_theme_cases w1 w2 name wd Hdef)
    as [[[Hd'|Hk'] _]|(_ & _ & Hb & _ & _ & Hrest)].
  - fold name in Hd'. rewrite Hd in Hd'. by destruct Hd'.
  - fold name in Hk. rewrite Hk' in Hk. by destruct Hk.
  - destruct Hrest as [(Hne & _)|(_ & d & Hdark & Hg & Hcfg)]; [done|].
    destruct (delete_custom_theme w1 w2 name wd) as [a wd'] eqn:Hr.
    simpl in *. subst a. exists d, wd'. split; [done|]. split; [done|].
    rewrite Hg in *. simpl. split; [done|]. split; [done|]. split.
    + unfold consistent. simpl. rewrite lookup_delete_ne; [done|].
      intros Heq. fold name in Heq. rewrite Heq, dark_is_default in Hd.
      done.
    + intros ->. by rewrite Hcfg.
Qed.

Lemma delete_active_theme_falls_back_witness :
  ∃ d wd',
    delete_custom_theme Succeeds Succeeds
      (current_theme_name (globals custom_world)) custom_world
    = (Says true, wd') ∧
    THEMES (globals custom_world) !! "dark"%string = Some d ∧
    current_theme_name (globals wd') = "dark"%string ∧
    current_theme (globals wd') = d ∧
    consistent (globals wd') ∧
    (Succeeds = Succeeds →
     config_file wd' =
     Holds {| cfg_theme := Some "dark"%string;
              cfg_speed := Some (speed (engine custom_world));
              cfg_was_running := Some (running (engine custom_world)) |}).
Proof.
  apply (delete_active_theme_falls_back Succeeds Succeeds custom_world).
  - intros name Hd. simpl.
    destruct (decide (name = "mine"%string)) as [->|Hne].
    + by rewrite lookup_insert_eq.
    + by rewrite lookup_insert_ne.
  - by vm_compute.
  - simpl. rewrite lookup_insert_eq. by eexists.
Defined.

(** X25: reading the configuration.  Whatever the two files hold,
    [load_config] raises nothing and leaves every default theme present.
    Without a readable configuration it answers [False] and leaves the
    engine alone.  With one, the active name becomes the recorded name even
    when no theme bears it any more; the active colours are then those of
    ["dark"], so that the name no longer designates them. *)
Theorem load_config_keeps_unknown_name (wd : World) :
  let r := load_config wd in
  let g' := globals r.2 in
  defaults_present g' ∧
  custom_themes_file r.2 = custom_themes_file wd ∧
  config_file r.2 = config_file wd ∧
  (config_file wd = Absent ∨ config_file wd = Corrupt →
   r.1 = false ∧ engine r.2 = engine wd) ∧
  (∀ cfg name,
     config_file wd = Holds cfg → cfg_theme cfg = Some name →
     current_theme_name g' = name ∧
     (is_Some (THEMES g' !! name) → consistent g') ∧
     (THEMES g' !! name = None →
      THEMES g' !! "dark"%string = Some (current_theme g') ∧
      ¬ consistent g')).
Proof.
  unfold load_config.
  pose proof (load_custom_themes_defaults (custom_themes_file wd) (globals wd))
    as Hdef.
  set (g1 := load_custom_themes (custom_themes_file wd) (globals wd)) in *.
  destruct (config_file wd) as [| |cfg] eqn:Hcf; simpl.
  - split; [done|]. split; [done|]. split; [done|]. split; [done|].
    by intros cfg name.
  - split; [done|]. split; [done|]. split; [done|]. split; [done|].
    by intros cfg name.
  - destruct (Hdef "dark"%string) as [d Hdark]; [by rewrite dark_is_default|].
    rewrite Hdark. simpl.
    split; [done|]. split; [done|]. split; [done|].
    split; [by intros [|]|].
    intros cfg' name [= <-] Hname. rewrite Hname. simpl.
    split; [done|]. unfold consistent. simpl. split.
    + intros [t Ht]. by rewrite Ht.
    + intros Hnone. rewrite Hnone. simpl. split; [done|]. done.
Qed.

(** X26: the configuration round trip.  What [load_config] reads back from
    a configuration written by [save_config] is the active name, the speed
    and the run flag that were saved, whatever the globals are when it is
    read; the grids, the counter and the history of the engine are not
    touched. *)
Theorem config_round_trip (g : Globals) (st : State) (wd : World)
    (f : json_file config) :
  let saved :=
    {| globals := globals wd; engine := engine wd;
       custom_themes_file := custom_themes_file wd;
       config_file := save_config Succeeds g st f |} in
  let r := load_config saved in
  r.1 = running st ∧
  current_theme_name (globals r.2) = current_theme_name g ∧
  speed (engine r.2) = speed st ∧
  T (engine r.2) = T (engine wd) ∧
  gen_counter (engine r.2) = gen_counter (engine wd) ∧
  running (engine r.2) = running (engine wd) ∧
  generation_history (engine r.2) = generation_history (engine wd).
Proof.
  unfold load_config. simpl.
  pose proof (load_custom_themes_defaults (custom_themes_file wd) (globals wd))
    as Hdef.
  destruct (Hdef "dark"%string) as [d Hdark]; [by rewrite dark_is_default|].
  by rewrite Hdark.
Qed.

(** X27: choosing a theme.  [change_theme] answers [True] exactly when the
    collection holds the name; it then makes the name and its colours the
    active ones and records the name in the configuration when the write
    succeeds.  Otherwise nothing changes.  The collection and the engine
    are never touched, and an active name that designates the active
    colours keeps doing so. *)
Theorem change_theme_spec (w : io) (name : string) (wd : World) :
  let r := change_theme w name wd in
  (r.1 = true ↔ is_Some (THEMES (globals wd) !! name)) ∧
  (r.1 = false → r.2 = wd) ∧
  (r.1 = true →
   current_theme_name (globals r.2) = name ∧
   THEMES (globals wd) !! name = Some (current_theme (globals r.2)) ∧
   (w = Succeeds →
    ∃ cfg, config_file r.2 = Holds cfg ∧ cfg_theme cfg = Some name)) ∧
  THEMES (globals r.2) = THEMES (globals wd) ∧
  engine r.2 = engine wd ∧
  custom_themes_file r.2 = custom_themes_file wd ∧
  (consistent (globals wd) → consistent (globals r.2)).
Proof.
  unfold change_theme.
  destruct (THEMES (globals wd) !! name) as [t|] eqn:Hk; simpl.
  - split; [by split; [eexists|]|]. split; [done|]. split.
    + intros _. split; [done|]. split; [done|]. intros ->. simpl.
      by eexists.
    + split; [done|]. split; [done|]. split; [done|]. by intros _.
  - split; [split; [done|by intros []]|]. by repeat split.
Qed.
